(** * Onion: a middleware stack for net/http

    A shallow embedding of package [onion] (a fork of negroni): the
    [Handler] interface, the [middleware] chain links, [build], [Wrap],
    and the [Onion] object with [New], [With], [Use] and [ServeHTTP].

    Two kinds of state appear in the Go code and are kept apart here:

    - the state that handlers act on while a request is served (the
      response writer, the request, variables captured by closures).
      It is an abstract type [World]; a handler is a function from a
      world to an [outcome], which is either a normal return or a panic.
      Handlers are thus taken to terminate and to be deterministic.
    - the Go heap that holds the [*Onion] objects and the backing arrays
      of their [[]Handler] slices.  Slices are headers (pointer, offset,
      length, capacity) into that heap, so that aliasing between a caller's
      slice, a parent Onion and its children is visible.

    Handlers do not reach into the second kind of state: a handler that
    registers handlers on the Onion that is serving it is outside of this
    model. *)

From stdpp Require Import base list strings.
From Stdlib Require Import FunctionalExtensionality.

Set Default Proof Using "Type".

(** ** Handlers and chain links *)

Section Model.

Variables RW Req World : Type.

(** What a call does to the world: it returns, or it panics with a value.
    A panic unwinds through every caller, so the statements that follow the
    call in the caller are not run. *)
Inductive outcome : Type :=
| Returned (w : World)
| Panicked (v : string) (w : World).

(** Statement sequencing [s1; s2] in Go. *)
Definition and_then (o : outcome) (k : World -> outcome) : outcome :=
  match o with
  | Returned w => k w
  | Panicked v w => Panicked v w
  end.

(** The behaviour of a value of interface type [http.Handler] when its
    [ServeHTTP(rw, r)] is called. *)
Definition http_Handler : Type := RW -> Req -> World -> outcome.

(** Calling a method on a nil interface value is a run-time panic. *)
Definition nil_dereference : string :=
  "invalid memory address or nil pointer dereference".

Definition nil_http_Handler : http_Handler :=
  fun _ _ w => Panicked nil_dereference w.

(** The behaviour of a non-nil value of interface type [onion.Handler]:
    [ServeHTTP(rw, r, next)]. *)
Definition Handler : Type := RW -> Req -> http_Handler -> World -> outcome.

(** A value of interface type [onion.Handler]; [None] is the nil
    interface, the only value for which [h == nil] holds. *)
Definition Handler_iface : Type := option Handler.

(** [type HandlerFunc func(rw, r, next)] and its method
    [func (h HandlerFunc) ServeHTTP(rw, r, next) { h(rw, r, next) }]. *)
Definition HandlerFunc
  (f : RW -> Req -> http_Handler -> World -> outcome) : Handler :=
  fun rw r next => f rw r next.

(** [type http.HandlerFunc func(rw, r)], whose [ServeHTTP] calls the
    function. *)
Definition http_HandlerFunc (f : RW -> Req -> World -> outcome) : http_Handler :=
  fun rw r => f rw r.

(** [type middleware struct { handler Handler; next http.Handler }].
    [next] only ever holds nil or a pointer to another [middleware] that
    is never written after [build] returns, so it is modelled by the
    pointee. *)
#[local] Unset Elimination Schemes.
Inductive middleware : Type :=
  Middleware { handler : Handler_iface; next : option middleware }.
#[local] Set Elimination Schemes.

(** [middleware{}], the zero value. *)
Definition zero_middleware : middleware := Middleware None None.

(** [func (m middleware) ServeHTTP(rw, r)]:
<<
    if m.handler == nil { return }
    m.handler.ServeHTTP(rw, r, m.next)
>> *)
Fixpoint middleware_ServeHTTP (m : middleware) : http_Handler :=
  match m with
  | Middleware None _ => fun _ _ w => Returned w
  | Middleware (Some h) nxt =>
      fun rw r =>
        h rw r (match nxt with
                | Some m' => middleware_ServeHTTP m'
                | None => nil_http_Handler
                end)
  end.

(** [func Wrap(handler http.Handler) Handler]:
<<
    return HandlerFunc(func(rw, r, next) {
        handler.ServeHTTP(rw, r)
        next.ServeHTTP(rw, r)
    })
>> *)
Definition Wrap (h : http_Handler) : Handler :=
  HandlerFunc (fun rw r next w => and_then (h rw r w) (next rw r)).

(** [func WrapFunc(handlerFunc http.HandlerFunc) Handler], the same with
    a direct call of the function. *)
Definition WrapFunc (handlerFunc : RW -> Req -> World -> outcome) : Handler :=
  HandlerFunc (fun rw r next w => and_then (handlerFunc rw r w) (next rw r)).

(** [func build(handlers []Handler) middleware], on the elements that the
    slice denotes ([handlers[1:]] is the tail):
<<
    if len(handlers) == 0 { return middleware{} }
    var next middleware
    if len(handlers) > 1 { next = build(handlers[1:]) }
    return middleware{handler: handlers[0], next: &next}
>> *)
Fixpoint build (handlers : list Handler_iface) : middleware :=
  match handlers with
  | [] => zero_middleware
  | h0 :: rest =>
      let next :=
        match rest with
        | [] => zero_middleware
        | _ :: _ => build rest
        end in
      Middleware h0 (Some next)
  end.

(** ** The Go heap: backing arrays, slices and Onion objects *)

(** A slice header.  [sptr] is the address of the backing array, [soff]
    the index in it of the slice's first element, [slen] and [scap] are
    [len(s)] and [cap(s)]. *)
Record slice : Type := Slice { sptr : nat; soff : nat; slen : nat; scap : nat }.

(** The nil slice: no element can be read or written through it, so the
    address it carries is never used. *)
Definition nil_slice : slice := Slice 0 0 0 0.

(** [type Onion struct { middleware middleware; handlers []Handler }]. *)
Record Onion : Type :=
  mkOnion { Onion_middleware : middleware; Onion_handlers : slice }.

(** The heap: the backing arrays and the Onion objects, by address. *)
Record heap : Type :=
  Heap { arrays : list (list Handler_iface); onions : list Onion }.

(** Heap operations return a value and the new heap, or panic. *)
Inductive res (A : Type) : Type :=
| Val (a : A) (σ : heap)
| Abort (v : string) (σ : heap).
Arguments Val {A} a σ.
Arguments Abort {A} v σ.

Definition M (A : Type) : Type := heap -> res A.

Definition ret {A} (a : A) : M A := fun σ => Val a σ.

Definition bind {A B} (m : M A) (k : A -> M B) : M B :=
  fun σ =>
    match m σ with
    | Val a σ' => k a σ'
    | Abort v σ' => Abort v σ'
    end.

Definition panic {A} (v : string) : M A := fun σ => Abort v σ.

Notation "x <- m ;; k" := (bind m (fun x => k))
  (at level 100, m at next level, right associativity).

Definition array_at (σ : heap) (p : nat) : list Handler_iface :=
  default [] (arrays σ !! p).

(** The elements [s[0], ..., s[len(s)-1]]. *)
Definition elems (σ : heap) (s : slice) : list Handler_iface :=
  take (slen s) (drop (soff s) (array_at σ (sptr s))).

Definition read_elems (s : slice) : M (list Handler_iface) :=
  fun σ => Val (elems σ s) σ.

(** [l] with the cells [i, i+1, ...] overwritten by [xs]. *)
Definition overwrite (i : nat) (xs l : list Handler_iface) : list Handler_iface :=
  take i l ++ xs ++ drop (i + length xs) l.

Definition store_array (p : nat) (a : list Handler_iface) : M unit :=
  fun σ => Val tt (Heap (<[p := a]> (arrays σ)) (onions σ)).

Definition alloc_array (a : list Handler_iface) : M nat :=
  fun σ => Val (length (arrays σ)) (Heap (arrays σ ++ [a]) (onions σ)).

(** [make([]Handler, n)]: a fresh array of [n] nil interfaces. *)
Definition make (n : nat) : M slice :=
  p <- alloc_array (replicate n None) ;;
  ret (Slice p 0 n n).

(** [copy(dst, src)]: copies [min(len(dst), len(src))] elements. *)
Definition copy (dst src : slice) : M nat :=
  fun σ =>
    let n := slen dst `min` slen src in
    (_ <- store_array (sptr dst)
            (overwrite (soff dst) (take n (elems σ src)) (array_at σ (sptr dst))) ;;
     ret n) σ.

(** The capacity that the run time picks when [append] has to move a
    slice of capacity [c] to hold [n] elements is not part of the
    language; it is at least [n]. *)
Variable growslice : nat -> nat -> nat.

Definition grown_cap (c n : nat) : nat := n `max` growslice c n.

(** [append(s, xs...)]: in place when the capacity suffices, else into a
    fresh, larger array. *)
Definition append (s : slice) (xs : list Handler_iface) : M slice :=
  fun σ =>
    let n := slen s + length xs in
    if decide (n <= scap s) then
      (_ <- store_array (sptr s)
              (overwrite (soff s + slen s) xs (array_at σ (sptr s))) ;;
       ret (Slice (sptr s) (soff s) n (scap s))) σ
    else
      let c := grown_cap (scap s) n in
      (p <- alloc_array (elems σ s ++ xs ++ replicate (c - n) None) ;;
       ret (Slice p 0 n c)) σ.

(** [s[i] = x], an assignment made by code outside of the package. *)
Definition set_index (s : slice) (i : nat) (x : Handler_iface) : M unit :=
  fun σ =>
    if decide (i < slen s) then
      store_array (sptr s) (<[soff s + i := x]> (array_at σ (sptr s))) σ
    else Abort "index out of range" σ.

(** The slice that a call [f(a, b, c)] of a variadic [f] receives: nil
    without arguments, else a fresh array holding exactly the
    arguments. *)
Definition variadic (args : list Handler_iface) : M slice :=
  match args with
  | [] => ret nil_slice
  | _ :: _ =>
      p <- alloc_array args ;;
      ret (Slice p 0 (length args) (length args))
  end.

(** [&Onion{...}]. *)
Definition alloc_Onion (o : Onion) : M nat :=
  fun σ => Val (length (onions σ)) (Heap (arrays σ) (onions σ ++ [o])).

(** [*n] for [n *Onion]; a nil or dangling pointer panics. *)
Definition load (n : nat) : M Onion :=
  fun σ =>
    match onions σ !! n with
    | Some o => Val o σ
    | None => Abort nil_dereference σ
    end.

Definition store_handlers (n : nat) (s : slice) : M unit :=
  o <- load n ;;
  fun σ => Val tt (Heap (arrays σ)
                     (<[n := mkOnion (Onion_middleware o) s]> (onions σ))).

Definition store_middleware (n : nat) (m : middleware) : M unit :=
  o <- load n ;;
  fun σ => Val tt (Heap (arrays σ)
                     (<[n := mkOnion m (Onion_handlers o)]> (onions σ))).

(** ** The Onion operations *)

(** [func New(handlers ...Handler) *Onion], given the slice that the
    variadic parameter is bound to:
<<
    return &Onion{handlers: handlers, middleware: build(handlers)}
>> *)
Definition New (handlers : slice) : M nat :=
  hs <- read_elems handlers ;;
  alloc_Onion (mkOnion (build hs) handlers).

(** [New(h1, ..., hk)], with the arguments written out at the call. *)
Definition New_of (args : list Handler_iface) : M nat :=
  s <- variadic args ;;
  New s.

(** [func (n *Onion) With(handlers ...Handler) *Onion]:
<<
    currentHandlers := make([]Handler, len(n.handlers))
    copy(currentHandlers, n.handlers)
    return New(append(currentHandlers, handlers...)...)
>>
    [handlers] is only read, and only after the writes to the fresh
    array, so it is passed as the elements it denotes. *)
Definition With (n : nat) (handlers : list Handler_iface) : M nat :=
  o <- load n ;;
  currentHandlers <- make (slen (Onion_handlers o)) ;;
  _ <- copy currentHandlers (Onion_handlers o) ;;
  s <- append currentHandlers handlers ;;
  New s.

(** [func (n *Onion) ServeHTTP(rw, r) { n.middleware.ServeHTTP(rw, r) }]. *)
Definition Onion_ServeHTTP (σ : heap) (n : nat) : http_Handler :=
  match onions σ !! n with
  | Some o => middleware_ServeHTTP (Onion_middleware o)
  | None => nil_http_Handler
  end.

(** [func (n *Onion) Use(handler Handler)]:
<<
    if handler == nil { panic("handler cannot be nil") }
    n.handlers = append(n.handlers, handler)
    n.middleware = build(n.handlers)
>> *)
Definition Use (n : nat) (handler : Handler_iface) : M unit :=
  match handler with
  | None => panic "handler cannot be nil"
  | Some _ =>
      o <- load n ;;
      s <- append (Onion_handlers o) [handler] ;;
      _ <- store_handlers n s ;;
      o' <- load n ;;
      hs <- read_elems (Onion_handlers o') ;;
      store_middleware n (build hs)
  end.

(** [UseFunc], [UseHandler] and [UseHandlerFunc] convert their argument
    and call [Use]; the converted value is never the nil interface. *)
Definition UseFunc (n : nat)
  (handlerFunc : RW -> Req -> http_Handler -> World -> outcome) : M unit :=
  Use n (Some (HandlerFunc handlerFunc)).

Definition UseHandler (n : nat) (h : http_Handler) : M unit :=
  Use n (Some (Wrap h)).

Definition UseHandlerFunc (n : nat)
  (handlerFunc : RW -> Req -> World -> outcome) : M unit :=
  UseHandler n (http_HandlerFunc handlerFunc).

(** [func (n *Onion) Handlers() []Handler { return n.handlers }]. *)
Definition Handlers (n : nat) : M slice :=
  o <- load n ;;
  ret (Onion_handlers o).

(** The registered sequence, as seen through the slice that [Handlers]
    returns. *)
Definition registered (σ : heap) (n : nat) : list Handler_iface :=
  match onions σ !! n with
  | Some o => elems σ (Onion_handlers o)
  | None => []
  end.

End Model.

Arguments Returned {World} w.
Arguments Panicked {World} v w.
Arguments and_then {World} o k.
Arguments nil_http_Handler {RW Req World} _ _ _.
Arguments HandlerFunc {RW Req World} f _ _ _ _.
Arguments http_HandlerFunc {RW Req World} f _ _ _.
Arguments Middleware {RW Req World} handler next.
Arguments handler {RW Req World} m.
Arguments next {RW Req World} m.
Arguments zero_middleware {RW Req World}.
Arguments middleware_ServeHTTP {RW Req World} m _ _ _.
Arguments Wrap {RW Req World} h _ _ _ _.
Arguments WrapFunc {RW Req World} handlerFunc _ _ _ _.
Arguments build {RW Req World} handlers.
Arguments mkOnion {RW Req World} Onion_middleware Onion_handlers.
Arguments Onion_middleware {RW Req World} o.
Arguments Onion_handlers {RW Req World} o.
Arguments Heap {RW Req World} arrays onions.
Arguments arrays {RW Req World} h.
Arguments onions {RW Req World} h.
Arguments Val {RW Req World A} a σ.
Arguments Abort {RW Req World A} v σ.
Arguments ret {RW Req World A} a _.
Arguments bind {RW Req World A B} m k _.
Arguments panic {RW Req World A} v _.
Arguments array_at {RW Req World} σ p.
Arguments elems {RW Req World} σ s.
Arguments read_elems {RW Req World} s _.
Arguments overwrite {RW Req World} i xs l.
Arguments store_array {RW Req World} p a _.
Arguments alloc_array {RW Req World} a _.
Arguments make {RW Req World} n _.
Arguments copy {RW Req World} dst src _.
Arguments append {RW Req World} growslice s xs _.
Arguments set_index {RW Req World} s i x _.
Arguments variadic {RW Req World} args _.
Arguments alloc_Onion {RW Req World} o _.
Arguments load {RW Req World} n _.
Arguments store_handlers {RW Req World} n s _.
Arguments store_middleware {RW Req World} n m _.
Arguments New {RW Req World} handlers _.
Arguments New_of {RW Req World} args _.
Arguments With {RW Req World} growslice n handlers _.
Arguments Onion_ServeHTTP {RW Req World} σ n _ _ _.
Arguments Use {RW Req World} growslice n handler _.
Arguments UseFunc {RW Req World} growslice n handlerFunc _.
Arguments UseHandler {RW Req World} growslice n h _.
Arguments UseHandlerFunc {RW Req World} growslice n handlerFunc _.
Arguments Handlers {RW Req World} n _.
Arguments registered {RW Req World} σ n.

Notation "x <- m ;; k" := (bind m (fun x => k))
  (at level 100, m at next level, right associativity).

(** ** Handlers used to observe the order of execution *)

Section Observers.

Context {RW Req World : Type}.

(** A handler of the shape
<<
    func(rw, r, next) { pre; next.ServeHTTP(rw, r); post }
>>
    as in [TestOnionServeHTTP], where [pre] and [post] are assignments
    such as [result += "foo"]. *)
Definition around (pre post : World -> World) : Handler RW Req World :=
  HandlerFunc (fun rw r next w =>
    and_then (next rw r (pre w)) (fun w' => Returned (post w'))).

(** The markers that the handler registered at position [i] records. *)
Inductive marker : Type :=
| before (i : nat)
| after (i : nat).

(** [record m] appends the marker [m] to a log kept in the world. *)
Definition marking (record : marker -> World -> World) (i : nat) :
    Handler RW Req World :=
  around (record (before i)) (record (after i)).

End Observers.

(** ** Well-formed slices, and what is observed of an Onion *)

Section Invariants.

Context {RW Req World : Type}.
Variable growslice : nat -> nat -> nat.

(** Every slice that a Go program can hold lies within its backing
    array. *)
Definition wf_slice (σ : heap RW Req World) (s : slice) : Prop :=
  slen s <= scap s ∧ soff s + scap s <= length (array_at σ (sptr s)).

(** The composed middleware of the Onion at [n] is the chain built from
    its registered sequence. *)
Definition consistent (σ : heap RW Req World) (n : nat) : Prop :=
  ∃ o, onions σ !! n = Some o
       ∧ Onion_middleware o = build (elems σ (Onion_handlers o)).

(** [ServeHTTP] on the Onion at [n] runs the chain built from the
    sequence that is registered in it now. *)
Definition in_sync (σ : heap RW Req World) (n : nat) : Prop :=
  consistent σ n
  ∧ Onion_ServeHTTP σ n = middleware_ServeHTTP (build (registered σ n)).

(** The heap in which a heap operation ends, whether it returns or
    panics. *)
Definition heap_after {A} (x : res RW Req World A) : heap RW Req World :=
  match x with
  | Val _ σ => σ
  | Abort _ σ => σ
  end.

(** [n.Use(h)] for every [(n, h)] of a list, in order. *)
Fixpoint Use_each (ops : list (nat * Handler RW Req World)) : M RW Req World unit :=
  match ops with
  | [] => ret tt
  | op :: ops => _ <- Use growslice op.1 (Some op.2) ;; Use_each ops
  end.

(** The handlers that [Use_each ops] registers on the Onion at [c]. *)
Definition used_on (c : nat) (ops : list (nat * Handler RW Req World)) :
    list (Handler_iface RW Req World) :=
  map (fun op => Some op.2) (filter (fun op => op.1 = c) ops).

(** Assignments [s[i] = x] made by the caller, in order. *)
Fixpoint set_each (ws : list (slice * nat * Handler_iface RW Req World)) :
    M RW Req World unit :=
  match ws with
  | [] => ret tt
  | wr :: ws => _ <- set_index wr.1.1 wr.1.2 wr.2 ;; set_each ws
  end.

(** The Onion at [c] has the sequence [V] in a well-formed slice whose
    array was allocated at or after address [N0], and its middleware is
    built from [V]. *)
Definition owns (σ : heap RW Req World) (N0 c : nat)
    (V : list (Handler_iface RW Req World)) : Prop :=
  ∃ o, onions σ !! c = Some o
       ∧ wf_slice σ (Onion_handlers o)
       ∧ N0 <= sptr (Onion_handlers o) < length (arrays σ)
       ∧ elems σ (Onion_handlers o) = V
       ∧ Onion_middleware o = build V.

(** The Onions at [c1] and [c2] keep their sequences in different
    arrays. *)
Definition apart (σ : heap RW Req World) (c1 c2 : nat) : Prop :=
  ∀ o1 o2, onions σ !! c1 = Some o1 → onions σ !! c2 = Some o2 →
           sptr (Onion_handlers o1) ≠ sptr (Onion_handlers o2).

(** Every array and every Onion of [σ0] is the same in [σ]. *)
Definition untouched (σ0 σ : heap RW Req World) : Prop :=
  (∀ a, a < length (arrays σ0) → arrays σ !! a = arrays σ0 !! a)
  ∧ (∀ q, q < length (onions σ0) → onions σ !! q = onions σ0 !! q).

End Invariants.

Arguments Use_each {RW Req World} growslice ops _.

(** ** Sequences of calls *)

#[global] Instance slice_eq_dec : EqDecision slice.
Proof. solve_decision. Defined.

Section Programs.

Context {RW Req World : Type}.
Variable growslice : nat -> nat -> nat.

(** [g1.ServeHTTP(rw, r); g2.ServeHTTP(rw, r); ...]: plain handlers run
    one after the other, up to the first panic. *)
Fixpoint in_sequence (gs : list (http_Handler RW Req World))
    (rw : RW) (r : Req) (w : World) : outcome World :=
  match gs with
  | [] => Returned w
  | g :: gs => and_then (g rw r w) (in_sequence gs rw r)
  end.

(** A call of one of the exported operations that make or change an
    Onion. *)
Inductive call : Type :=
| call_New (args : list (Handler_iface RW Req World))
| call_With (n : nat) (args : list (Handler_iface RW Req World))
| call_Use (n : nat) (h : Handler_iface RW Req World)
| call_UseFunc (n : nat)
    (f : RW -> Req -> http_Handler RW Req World -> World -> outcome World)
| call_UseHandler (n : nat) (g : http_Handler RW Req World)
| call_UseHandlerFunc (n : nat) (k : RW -> Req -> World -> outcome World).

Definition perform (c : call) : M RW Req World unit :=
  match c with
  | call_New args => _ <- New_of args ;; ret tt
  | call_With n args => _ <- With growslice n args ;; ret tt
  | call_Use n h => Use growslice n h
  | call_UseFunc n f => UseFunc growslice n f
  | call_UseHandler n g => UseHandler growslice n g
  | call_UseHandlerFunc n k => UseHandlerFunc growslice n k
  end.

(** A program that makes the calls one after the other; when a call
    panics the program recovers and goes on from the heap of the panic. *)
Fixpoint perform_all (cs : list call) (σ : heap RW Req World) : heap RW Req World :=
  match cs with
  | [] => σ
  | c :: cs => perform_all cs (heap_after (perform c σ))
  end.

(** Every Onion has a middleware built from its sequence, and its slice
    is nil or lies in an allocated array that no other Onion with a slice
    other than nil uses. *)
Definition tidy (σ : heap RW Req World) : Prop :=
  ∀ n o, onions σ !! n = Some o →
    Onion_middleware o = build (elems σ (Onion_handlers o))
    ∧ (Onion_handlers o = nil_slice
       ∨ (wf_slice σ (Onion_handlers o)
          ∧ sptr (Onion_handlers o) < length (arrays σ)
          ∧ ∀ n' o', n' ≠ n → onions σ !! n' = Some o' →
                     Onion_handlers o' ≠ nil_slice →
                     sptr (Onion_handlers o') ≠ sptr (Onion_handlers o))).

End Programs.

Arguments call : clear implicits.
Arguments perform {RW Req World} growslice c _.
Arguments perform_all {RW Req World} growslice cs σ.

(** ** Concrete handlers and heaps, after the tests of the package *)

Module Example.

(** The world is a log of markers, as the string [result] of the tests. *)
Definition log : Type := list marker.

Definition record (m : marker) (w : log) : log := w ++ [m].

Definition trace (w : log) : list marker := w.

(** A growth policy for [append]: twice the old capacity. *)
Definition doubling (c n : nat) : nat := 2 * c.

Definition no_heap : heap unit unit log := Heap [] [].

(** A handler that records a marker and does not call [next], as the
    last handler of [TestOnionServeHTTP]. *)
Definition terminal (i : nat) : Handler unit unit log :=
  HandlerFunc (fun _ _ _ w => Returned (record (before i) w)).

(** [voidHTTPHandlerFunc]. *)
Definition void : http_Handler unit unit log := fun _ _ w => Returned w.

(** The heap of [TestOnionWith_doNotModifyOriginal] before the calls of
    [With]: one Onion, whose sequence of length 1 lies in an array of
    capacity 10. *)
Definition parent : Onion unit unit log :=
  mkOnion (build [Some (marking record 1)]) (Slice 0 0 1 10).

Definition parent_heap : heap unit unit log :=
  Heap [Some (marking record 1) :: replicate 9 None] [parent].

(** A caller that holds a slice [s] with one handler, before it calls
    [New(s...)]. *)
Definition callers_slice : slice := Slice 0 0 1 1.

Definition callers_heap : heap unit unit log :=
  Heap [[Some (marking record 1)]] [].

End Example.

Module Sample.

(** A handler that panics without calling [next]. *)
Definition boom : Handler unit unit Example.log :=
  HandlerFunc (fun _ _ _ w => Panicked "boom" w).

(** A plain handler that records a marker. *)
Definition note (i : nat) : http_Handler unit unit Example.log :=
  fun _ _ w => Returned (Example.record (before i) w).

(** A caller's array of capacity 4, of which the slice [s] covers the
    first cell. *)
Definition roomy_slice : slice := Slice 0 0 1 4.

Definition roomy_heap : heap unit unit Example.log :=
  Heap [Some (marking Example.record 1) :: replicate 3 None] [].


End Sample.

(** ** Properties of the chain *)

Section Chain.

Context {RW Req World : Type}.

Implicit Types (h : Handler RW Req World) (hs : list (Handler_iface RW Req World)).
Implicit Types (m : middleware RW Req World) (rw : RW) (r : Req) (w : World).

Lemma build_cons (x : Handler_iface RW Req World) hs :
  build (x :: hs) = Middleware x (Some (build hs)).
Proof. by destruct hs. Qed.

Lemma ServeHTTP_build_cons h hs :
  middleware_ServeHTTP (build (Some h :: hs))
  = fun rw r => h rw r (middleware_ServeHTTP (build hs)).
Proof. by rewrite build_cons. Qed.

Lemma ServeHTTP_build_nil_head hs :
  middleware_ServeHTTP (build (None :: hs)) = fun _ _ w => Returned w.
Proof. by rewrite build_cons. Qed.

Lemma ServeHTTP_build_truncate (pre post : list (Handler_iface RW Req World)) :
  middleware_ServeHTTP (build (pre ++ None :: post))
  = middleware_ServeHTTP (build pre).
Proof.
  induction pre as [|[h|] pre IH]; simpl app.
  - by rewrite ServeHTTP_build_nil_head.
  - by rewrite !ServeHTTP_build_cons, IH.
  - by rewrite !ServeHTTP_build_nil_head.
Qed.

(** The effects of a chain of [around] handlers: every [pre] in order,
    then every [post] in the opposite order. *)
Lemma ServeHTTP_build_around (l : list ((World -> World) * (World -> World))) rw r w :
  middleware_ServeHTTP
    (build (map (fun p => Some (around (RW:=RW) (Req:=Req) p.1 p.2)) l)) rw r w
  = Returned (foldr (fun p acc => p.2 acc) (foldl (fun acc p => p.1 acc) w l) l).
Proof.
  revert w. induction l as [|[pre post] l IH]; intros w; [done|].
  cbn [map]. rewrite ServeHTTP_build_cons.
  unfold around at 1, HandlerFunc. by rewrite IH.
Qed.

End Chain.

(** ** Properties of the heap operations *)

Section Heap.

Context {RW Req World : Type}.
Variable growslice : nat -> nat -> nat.

Implicit Types (h : Handler RW Req World) (hs : list (Handler_iface RW Req World)).
Implicit Types (σ : heap RW Req World) (s : slice) (o : Onion RW Req World).
Implicit Types (rw : RW) (r : Req) (w : World).

Lemma bind_Val {A B} (m : M RW Req World A) (k : A → M RW Req World B) σ a σ' :
  m σ = Val a σ' → bind m k σ = k a σ'.
Proof. unfold bind. by intros ->. Qed.

Lemma load_Some n o σ : onions σ !! n = Some o → load n σ = Val o σ.
Proof. unfold load. by intros ->. Qed.

Lemma store_handlers_Val n o s σ :
  onions σ !! n = Some o →
  store_handlers n s σ
  = Val tt (Heap (arrays σ) (<[n := mkOnion (Onion_middleware o) s]> (onions σ))).
Proof. intros Hn. unfold store_handlers. by rewrite (bind_Val _ _ _ _ _ (load_Some _ _ _ Hn)). Qed.

Lemma store_middleware_Val n o m σ :
  onions σ !! n = Some o →
  store_middleware n m σ
  = Val tt (Heap (arrays σ) (<[n := mkOnion m (Onion_handlers o)]> (onions σ))).
Proof. intros Hn. unfold store_middleware. by rewrite (bind_Val _ _ _ _ _ (load_Some _ _ _ Hn)). Qed.

Lemma array_at_alloc σ (a : list (Handler_iface RW Req World)) os :
  array_at (Heap (arrays σ ++ [a]) os) (length (arrays σ)) = a.
Proof. unfold array_at. cbn [arrays]. by rewrite list_lookup_middle. Qed.

Lemma elems_alloc_whole σ (a : list (Handler_iface RW Req World)) os :
  elems (Heap (arrays σ ++ [a]) os)
        (Slice (length (arrays σ)) 0 (length a) (length a)) = a.
Proof.
  unfold elems. cbn [sptr soff slen]. rewrite array_at_alloc.
  by rewrite drop_0, firstn_all.
Qed.

(** [New(h1, ..., hk)] always returns: it stores the arguments and the
    chain built from them, whatever the arguments are. *)
Lemma New_of_Val hs σ :
  ∃ s σ', New_of hs σ = Val (length (onions σ)) σ'
    ∧ onions σ' = onions σ ++ [mkOnion (build hs) s]
    ∧ elems σ' s = hs.
Proof.
  destruct hs as [|x hs].
  - exists nil_slice. eexists. split; [reflexivity|]. by split.
  - eexists. eexists. unfold New_of, variadic, New, bind, alloc_array, ret,
      read_elems, alloc_Onion.
    rewrite elems_alloc_whole. split; [reflexivity|]. cbn [onions arrays].
    split; [done|]. apply (elems_alloc_whole σ (x :: hs)).
Qed.

Lemma New_of_served hs σ :
  ∃ σ', New_of hs σ = Val (length (onions σ)) σ'
    ∧ registered σ' (length (onions σ)) = hs
    ∧ Onion_ServeHTTP σ' (length (onions σ)) = middleware_ServeHTTP (build hs).
Proof.
  destruct (New_of_Val hs σ) as (s & σ' & HN & Ho & Hs).
  exists σ'. split; [done|].
  unfold registered, Onion_ServeHTTP. rewrite Ho, list_lookup_middle by done.
  by split.
Qed.

(** *** Slices *)

Lemma wf_elems_length σ s : wf_slice σ s → length (elems σ s) = slen s.
Proof.
  intros [Hlen Hcap]. unfold elems. rewrite length_take, length_drop. lia.
Qed.

Lemma wf_unallocated σ s :
  wf_slice σ s → length (arrays σ) <= sptr s → scap s = 0 ∧ slen s = 0.
Proof.
  intros [Hlen Hcap] Hp. unfold array_at in Hcap.
  rewrite (lookup_ge_None_2 _ _ Hp) in Hcap. cbn in Hcap. lia.
Qed.

Lemma elems_empty σ s : slen s = 0 → elems σ s = [].
Proof. unfold elems. by intros ->. Qed.

Lemma array_at_eq σ σ' (a : nat) :
  arrays σ' !! a = arrays σ !! a → array_at σ' a = array_at σ a.
Proof. unfold array_at. by intros ->. Qed.

Lemma elems_eq σ σ' s :
  arrays σ' !! sptr s = arrays σ !! sptr s → elems σ' s = elems σ s.
Proof. intros H. unfold elems. by rewrite (array_at_eq _ _ _ H). Qed.

Lemma wf_slice_eq σ σ' s :
  arrays σ' !! sptr s = arrays σ !! sptr s → wf_slice σ s → wf_slice σ' s.
Proof. intros H. unfold wf_slice. by rewrite (array_at_eq _ _ _ H). Qed.

(** Allocating an array leaves every well-formed slice as it is. *)
Lemma elems_alloc σ s (a : list (Handler_iface RW Req World)) os :
  wf_slice σ s → elems (Heap (arrays σ ++ [a]) os) s = elems σ s.
Proof.
  intros Hwf. destruct (decide (sptr s < length (arrays σ))) as [Hlt|Hge].
  - apply elems_eq. cbn [arrays]. by rewrite lookup_app_l.
  - destruct (wf_unallocated σ s Hwf) as [_ H0]; [lia|].
    by rewrite !elems_empty.
Qed.

Lemma length_overwrite i (xs l : list (Handler_iface RW Req World)) :
  i + length xs <= length l → length (overwrite i xs l) = length l.
Proof.
  intros H. unfold overwrite.
  rewrite !length_app, length_take, length_drop. lia.
Qed.

Lemma elems_overwrite k n (xs l : list (Handler_iface RW Req World)) :
  k + n <= length l →
  take (n + length xs) (drop k (overwrite (k + n) xs l))
  = take n (drop k l) ++ xs.
Proof.
  intros H. unfold overwrite.
  rewrite drop_app_le by (rewrite length_take; lia).
  rewrite <- take_drop_commute, app_assoc.
  apply take_app_length'.
  rewrite length_app, length_take, length_drop. lia.
Qed.

Lemma array_at_store σ (p : nat) (a : list (Handler_iface RW Req World)) os :
  p < length (arrays σ) → array_at (Heap (<[p := a]> (arrays σ)) os) p = a.
Proof.
  intros H. unfold array_at. cbn [arrays].
  by rewrite list_lookup_insert_eq.
Qed.

(** [append] returns; the result holds the old elements followed by the
    new ones; it is written in the array of [s] or in a fresh one, and no
    other array changes. *)
Lemma append_spec s hs σ :
  wf_slice σ s →
  ∃ s' σ', append growslice s hs σ = Val s' σ'
    ∧ onions σ' = onions σ
    ∧ wf_slice σ' s'
    ∧ elems σ' s' = elems σ s ++ hs
    ∧ length (arrays σ) <= length (arrays σ')
    ∧ (sptr s' = sptr s ∨ length (arrays σ) <= sptr s')
    ∧ (hs ≠ [] ∨ sptr s < length (arrays σ) → sptr s' < length (arrays σ'))
    ∧ (∀ a, a ≠ sptr s → a < length (arrays σ) →
            arrays σ' !! a = arrays σ !! a).
Proof.
  intros Hwf. pose proof Hwf as [Hlen Hcap].
  unfold append. case_decide as Hfit.
  - (* in place *)
    eexists. eexists. split; [reflexivity|].
    cbn [onions arrays sptr soff slen scap]. split; [done|].
    destruct (decide (sptr s < length (arrays σ))) as [Hlt|Hge].
    + repeat split.
      * cbn [slen scap]. lia.
      * cbn [sptr soff scap]. rewrite array_at_store by done.
        rewrite length_overwrite; lia.
      * unfold elems at 1. cbn [sptr soff slen].
        rewrite array_at_store by done. apply elems_overwrite. lia.
      * by rewrite length_insert.
      * by left.
      * intros _. by rewrite length_insert.
      * intros a Ha _. by rewrite list_lookup_insert_ne.
    + destruct (wf_unallocated σ s Hwf) as [Hc0 Hl0]; [lia|].
      assert (hs = []) as -> by (destruct hs; [done|cbn in Hfit; lia]).
      rewrite list_insert_ge by lia.
      replace (slen s + length (@nil (Handler_iface RW Req World)))
        with (slen s) by (cbn; lia).
      rewrite app_nil_r. destruct σ as [ars os], s as [p k n c].
      cbn in *. split_and!; [done|done|done|by left| |done].
      intros [?|?]; [done|lia].
  - (* into a fresh array *)
    eexists. eexists. split; [reflexivity|].
    cbn [onions arrays sptr soff slen scap]. split; [done|].
    set (n := slen s + length hs).
    set (c := grown_cap growslice (scap s) n).
    assert (n <= c) by (unfold c, grown_cap; lia).
    pose proof (wf_elems_length σ s Hwf) as HL.
    repeat split.
    * done.
    * cbn [sptr soff scap]. rewrite array_at_alloc.
      rewrite !length_app, length_replicate, HL. cbn. lia.
    * unfold elems at 1. cbn [sptr soff slen]. rewrite array_at_alloc, drop_0.
      rewrite app_assoc. apply take_app_length'.
      rewrite length_app. lia.
    * rewrite length_app. lia.
    * right. lia.
    * intros _. rewrite length_app. cbn. lia.
    * intros a _ Ha. by rewrite lookup_app_l.
Qed.

(** *** Use *)

(** [Use] of a handler that is not nil on an Onion that exists returns.
    The sequence grows by the handler, the middleware is rebuilt from the
    grown sequence, and apart from the Onion itself only the array of its
    slice can change. *)
Lemma Use_spec n o h σ :
  onions σ !! n = Some o →
  wf_slice σ (Onion_handlers o) →
  ∃ s' σ', Use growslice n (Some h) σ = Val tt σ'
    ∧ onions σ'
      = <[n := mkOnion (build (elems σ (Onion_handlers o) ++ [Some h])) s']>
          (onions σ)
    ∧ wf_slice σ' s'
    ∧ elems σ' s' = elems σ (Onion_handlers o) ++ [Some h]
    ∧ length (arrays σ) <= length (arrays σ')
    ∧ (sptr s' = sptr (Onion_handlers o) ∨ length (arrays σ) <= sptr s')
    ∧ sptr s' < length (arrays σ')
    ∧ (∀ a, a ≠ sptr (Onion_handlers o) → a < length (arrays σ) →
            arrays σ' !! a = arrays σ !! a).
Proof.
  intros Hn Hwf.
  destruct (append_spec (Onion_handlers o) [Some h] σ Hwf)
    as (s' & σ1 & Happ & Hon & Hwf' & Hel & Hgrow & Hptr & Halloc & Hframe).
  pose proof (lookup_lt_Some _ _ _ Hn) as Hlt.
  exists s', (Heap (arrays σ1)
               (<[n := mkOnion (build (elems σ (Onion_handlers o) ++ [Some h])) s']>
                  (onions σ))).
  split.
  - unfold Use. rewrite (bind_Val _ _ _ _ _ (load_Some _ _ _ Hn)).
    rewrite (bind_Val _ _ _ _ _ Happ).
    rewrite <- Hon in Hn, Hlt.
    rewrite (bind_Val _ _ _ _ _ (store_handlers_Val _ _ s' _ Hn)).
    erewrite bind_Val by (apply load_Some, list_lookup_insert_eq, Hlt).
    erewrite bind_Val by reflexivity.
    erewrite store_middleware_Val by (apply list_lookup_insert_eq, Hlt).
    cbn [onions arrays Onion_handlers]. rewrite list_insert_insert_eq, Hon.
    do 3 f_equal. rewrite <- Hel. done.
  - cbn [onions arrays]. split_and!; try done.
    apply Halloc. by left.
Qed.


(** *** New and With *)

Lemma New_Val s σ :
  New s σ
  = Val (length (onions σ))
        (Heap (arrays σ) (onions σ ++ [mkOnion (build (elems σ s)) s])).
Proof. done. Qed.


Lemma make_Val (k : nat) σ :
  make k σ
  = Val (Slice (length (arrays σ)) 0 k k)
        (Heap (arrays σ ++ [replicate k None]) (onions σ)).
Proof. done. Qed.

(** [make] followed by [copy] leaves a fresh array with the elements of
    the source. *)
Lemma copy_fresh_Val s σ :
  wf_slice σ s →
  copy (Slice (length (arrays σ)) 0 (slen s) (slen s)) s
       (Heap (arrays σ ++ [replicate (slen s) None]) (onions σ))
  = Val (slen s) (Heap (arrays σ ++ [elems σ s]) (onions σ)).
Proof.
  intros Hwf. pose proof (wf_elems_length σ s Hwf) as HL.
  unfold copy, store_array, bind, ret. cbn [sptr soff slen arrays onions].
  rewrite Nat.min_id, array_at_alloc, elems_alloc by done.
  rewrite take_ge by lia. unfold overwrite.
  rewrite take_0, Nat.add_0_l, HL, drop_ge by (rewrite length_replicate; lia).
  rewrite app_nil_l, app_nil_r.
  replace (length (arrays σ)) with (length (arrays σ) + 0) at 1 by lia.
  by rewrite insert_app_r.
Qed.

(** [With] on an Onion that exists returns a new Onion.  Its sequence is
    that of the receiver followed by the arguments, in an array that did
    not exist before; nothing that existed before has changed. *)
Lemma With_spec n o hs σ :
  onions σ !! n = Some o →
  wf_slice σ (Onion_handlers o) →
  ∃ s' σ', With growslice n hs σ = Val (length (onions σ)) σ'
    ∧ onions σ'
      = onions σ ++ [mkOnion (build (elems σ (Onion_handlers o) ++ hs)) s']
    ∧ wf_slice σ' s'
    ∧ elems σ' s' = elems σ (Onion_handlers o) ++ hs
    ∧ length (arrays σ) <= sptr s' < length (arrays σ')
    ∧ (∀ a, a < length (arrays σ) → arrays σ' !! a = arrays σ !! a).
Proof.
  intros Hn Hwf. set (s := Onion_handlers o) in *.
  pose proof (wf_elems_length σ s Hwf) as HL.
  set (σ2 := Heap (arrays σ ++ [elems σ s]) (onions σ)).
  set (cur := Slice (length (arrays σ)) 0 (slen s) (slen s)).
  assert (elems σ2 cur = elems σ s) as Hcur.
  { unfold σ2, cur. rewrite <- HL. apply elems_alloc_whole. }
  assert (wf_slice σ2 cur) as Hwfcur.
  { split; [done|]. unfold σ2, cur. cbn [sptr soff scap].
    rewrite array_at_alloc. lia. }
  destruct (append_spec cur hs σ2 Hwfcur)
    as (s' & σ3 & Happ & Hon & Hwf' & Hel & Hgrow & Hptr & Halloc & Hframe).
  assert (length (arrays σ2) = S (length (arrays σ))) as HN
    by (unfold σ2; cbn [arrays]; rewrite length_app; cbn; lia).
  exists s', (Heap (arrays σ3)
               (onions σ ++ [mkOnion (build (elems σ s ++ hs)) s'])).
  split.
  - unfold With. rewrite (bind_Val _ _ _ _ _ (load_Some _ _ _ Hn)).
    rewrite (bind_Val _ _ _ _ _ (make_Val _ _)).
    rewrite (bind_Val _ _ _ _ _ (copy_fresh_Val _ _ Hwf)).
    rewrite (bind_Val _ _ _ _ _ Happ), New_Val, Hon, Hel, Hcur. done.
  - cbn [onions arrays]. split_and!; try done.
    + by rewrite <- Hcur, <- Hel.
    + destruct Hptr as [Hp|Hp]; [rewrite Hp; unfold cur; cbn [sptr]|]; lia.
    + apply Halloc. right. unfold cur. cbn [sptr]. lia.
    + intros a Ha. rewrite Hframe.
      * unfold σ2. cbn [arrays]. by rewrite lookup_app_l.
      * unfold cur. cbn [sptr]. lia.
      * lia.
Qed.


(** *** Onions that keep their sequences in arrays of their own *)

Lemma wf_slice_untouched σ0 σ s :
  untouched σ0 σ → wf_slice σ0 s → wf_slice σ s.
Proof.
  intros [Harr _] Hwf.
  destruct (decide (sptr s < length (arrays σ0))) as [Hlt|Hge].
  - apply (wf_slice_eq σ0); [by apply Harr|done].
  - destruct (wf_unallocated σ0 s Hwf) as [Hc Hl]; [lia|].
    destruct Hwf as [_ Hcap]. unfold array_at in Hcap.
    rewrite lookup_ge_None_2 in Hcap by lia. cbn in Hcap.
    split; lia.
Qed.

Lemma elems_untouched σ0 σ s :
  untouched σ0 σ → wf_slice σ0 s → elems σ s = elems σ0 s.
Proof.
  intros [Harr _] Hwf.
  destruct (decide (sptr s < length (arrays σ0))) as [Hlt|Hge].
  - by apply elems_eq, Harr.
  - destruct (wf_unallocated σ0 s Hwf) as [_ Hl]; [lia|].
    by rewrite !elems_empty.
Qed.

Lemma apart_sym σ c1 c2 : apart σ c1 c2 → apart σ c2 c1.
Proof. intros H o2 o1 H2 H1 Heq. by apply (H o1 o2). Qed.

Lemma used_on_cons c (op : nat * Handler RW Req World) ops :
  used_on c (op :: ops)
  = if decide (op.1 = c) then Some op.2 :: used_on c ops else used_on c ops.
Proof. unfold used_on. rewrite filter_cons. by case_decide. Qed.

(** [Use] on one of two Onions that both keep their sequences in arrays
    of their own, allocated after the heap [σ0] was left, extends the
    sequence of that Onion and changes neither the other Onion nor
    anything that [σ0] held. *)
Lemma Use_family σ0 σ c1 c2 V1 V2 h :
  c1 ≠ c2 →
  length (onions σ0) <= c1 →
  untouched σ0 σ →
  owns σ (length (arrays σ0)) c1 V1 →
  owns σ (length (arrays σ0)) c2 V2 →
  apart σ c1 c2 →
  ∃ σ', Use growslice c1 (Some h) σ = Val tt σ'
    ∧ untouched σ0 σ'
    ∧ owns σ' (length (arrays σ0)) c1 (V1 ++ [Some h])
    ∧ owns σ' (length (arrays σ0)) c2 V2
    ∧ apart σ' c1 c2.
Proof.
  intros Hne Hc1 [Harr Hons] (o1 & Ho1 & Hwf1 & Hp1 & Hel1 & Hm1)
    (o2 & Ho2 & Hwf2 & Hp2 & Hel2 & Hm2) Hapart.
  destruct (Use_spec c1 o1 h σ Ho1 Hwf1)
    as (s' & σ' & HUse & Hon & Hwf' & Hel & Hgrow & Hptr & Halloc & Hframe).
  pose proof (Hapart o1 o2 Ho1 Ho2) as Hp12.
  pose proof (lookup_lt_Some _ _ _ Ho1) as Hlt1.
  assert (arrays σ' !! sptr (Onion_handlers o2)
          = arrays σ !! sptr (Onion_handlers o2)) as Hsame2.
  { apply Hframe; [congruence|lia]. }
  exists σ'. split; [done|]. split_and!.
  - split.
    + intros a Ha. rewrite Hframe by lia. by apply Harr.
    + intros q Hq. rewrite Hon, list_lookup_insert_ne by lia. by apply Hons.
  - eexists. rewrite Hon, list_lookup_insert_eq by done.
    split; [reflexivity|]. cbn [Onion_handlers Onion_middleware].
    rewrite Hel, Hel1. split_and!; try done.
    destruct Hptr as [->|?]; lia.
  - exists o2. rewrite Hon, list_lookup_insert_ne by done.
    split_and!; try done; try lia.
    + by apply (wf_slice_eq σ).
    + by rewrite (elems_eq σ).
  - intros o1' o2'. rewrite Hon, list_lookup_insert_eq by done.
    rewrite list_lookup_insert_ne by done. rewrite Ho2.
    intros [= <-] [= <-]. cbn [Onion_handlers].
    destruct Hptr as [->|?]; [done|lia].
Qed.

Lemma Use_each_family σ0 c1 c2 (ops : list (nat * Handler RW Req World)) :
  c1 ≠ c2 →
  length (onions σ0) <= c1 →
  length (onions σ0) <= c2 →
  Forall (fun op => op.1 = c1 ∨ op.1 = c2) ops →
  ∀ σ V1 V2,
    untouched σ0 σ →
    owns σ (length (arrays σ0)) c1 V1 →
    owns σ (length (arrays σ0)) c2 V2 →
    apart σ c1 c2 →
    ∃ σ', Use_each growslice ops σ = Val tt σ'
      ∧ untouched σ0 σ'
      ∧ owns σ' (length (arrays σ0)) c1 (V1 ++ used_on c1 ops)
      ∧ owns σ' (length (arrays σ0)) c2 (V2 ++ used_on c2 ops).
Proof.
  intros Hne Hc1 Hc2 Hops.
  induction Hops as [|[c h] ops Hop _ IH]; intros σ V1 V2 Hun H1 H2 Hap.
  - exists σ. unfold used_on. cbn. by rewrite !app_nil_r.
  - cbn [fst] in Hop. rewrite !used_on_cons. cbn [fst snd].
    cbn [Use_each fst snd]. destruct Hop as [->| ->].
    + destruct (Use_family σ0 σ c1 c2 V1 V2 h Hne Hc1 Hun H1 H2 Hap)
        as (σ' & HUse & Hun' & H1' & H2' & Hap').
      rewrite (bind_Val _ _ _ _ _ HUse).
      rewrite decide_True, decide_False by done.
      rewrite (cons_middle (Some h)), app_assoc. by apply IH.
    + destruct (Use_family σ0 σ c2 c1 V2 V1 h (not_eq_sym Hne) Hc2 Hun H2 H1
                  (apart_sym _ _ _ Hap))
        as (σ' & HUse & Hun' & H2' & H1' & Hap').
      rewrite (bind_Val _ _ _ _ _ HUse).
      rewrite decide_False, decide_True by done.
      rewrite (cons_middle (Some h)), app_assoc.
      apply IH; [done..|by apply apart_sym].
Qed.

Lemma owns_observed σ N0 c (V : list (Handler_iface RW Req World)) :
  owns σ N0 c V →
  registered σ c = V
  ∧ Onion_ServeHTTP σ c = middleware_ServeHTTP (build V)
  ∧ consistent σ c.
Proof.
  intros (o & Ho & _ & _ & Hel & Hm).
  unfold registered, Onion_ServeHTTP, consistent. rewrite Ho, Hel, Hm.
  split_and!; try done. exists o. by rewrite Hel.
Qed.

Lemma consistent_ServeHTTP σ n :
  consistent σ n →
  Onion_ServeHTTP σ n = middleware_ServeHTTP (build (registered σ n)).
Proof.
  intros (o & Ho & Hm). unfold Onion_ServeHTTP, registered. by rewrite Ho, Hm.
Qed.

Lemma consistent_in_sync σ n : consistent σ n → in_sync σ n.
Proof. intros H. split; [done|]. by apply consistent_ServeHTTP. Qed.

(** *** Assignments to the elements of slices *)

Lemma set_index_onions s i (x : Handler_iface RW Req World) σ :
  onions (heap_after (set_index s i x σ)) = onions σ.
Proof. unfold set_index. by case_decide. Qed.

Lemma set_each_onions (ws : list (slice * nat * Handler_iface RW Req World)) σ :
  onions (heap_after (set_each ws σ)) = onions σ.
Proof.
  revert σ. induction ws as [|wr ws IH]; intros σ; [done|].
  cbn [set_each]. unfold bind.
  pose proof (set_index_onions wr.1.1 wr.1.2 wr.2 σ) as Hstep.
  destruct (set_index wr.1.1 wr.1.2 wr.2 σ) as [[] σ1|v σ1]; cbn in Hstep.
  - by rewrite IH.
  - done.
Qed.

End Heap.

(** ** The specification, claim by claim *)

Section Specification.

Context {RW Req World : Type}.
Variable growslice : nat -> nat -> nat.

Implicit Types (h : Handler RW Req World) (hs : list (Handler_iface RW Req World)).
Implicit Types (σ : heap RW Req World) (s : slice) (o : Onion RW Req World).
Implicit Types (rw : RW) (r : Req) (w : World).

Lemma trace_pre (record : marker -> World -> World) (trace : World -> list marker)
    (ids : list nat) w :
  (∀ m w, trace (record m w) = trace w ++ [m]) →
  trace (foldl (fun acc p => p.1 acc) w
           (map (fun i => (record (before i), record (after i))) ids))
  = trace w ++ map before ids.
Proof.
  intros Hrec. revert w. induction ids as [|i ids IH]; intros w; cbn.
  - by rewrite app_nil_r.
  - by rewrite IH, Hrec, <- app_assoc.
Qed.

Lemma trace_post (record : marker -> World -> World) (trace : World -> list marker)
    (ids : list nat) w :
  (∀ m w, trace (record m w) = trace w ++ [m]) →
  trace (foldr (fun p acc => p.2 acc) w
           (map (fun i => (record (before i), record (after i))) ids))
  = trace w ++ reverse (map after ids).
Proof.
  intros Hrec. induction ids as [|i ids IH]; cbn [map foldr snd].
  - by rewrite app_nil_r.
  - by rewrite Hrec, IH, reverse_cons, <- app_assoc.
Qed.

(** C1.  Let every handler of a sequence record [before i], call its
    continuation and then record [after i], where [record] appends to a
    log [trace] of the world.  Serving a request with the Onion that [New]
    makes from the sequence returns, and the log has grown by the
    [before] markers in registration order followed by the [after]
    markers in the opposite order.  (The empty sequence is included: the
    log is then unchanged.) *)
Theorem ServeHTTP_onion_order
    (record : marker -> World -> World) (trace : World -> list marker)
    (ids : list nat) σ rw r w :
  (∀ m w, trace (record m w) = trace w ++ [m]) →
  ∃ σ' w',
    New_of (map (fun i => Some (marking (RW:=RW) (Req:=Req) record i)) ids) σ
      = Val (length (onions σ)) σ'
    ∧ Onion_ServeHTTP σ' (length (onions σ)) rw r w = Returned w'
    ∧ trace w' = trace w ++ map before ids ++ reverse (map after ids).
Proof.
  intros Hrec.
  destruct (New_of_served
              (map (fun i => Some (marking (RW:=RW) (Req:=Req) record i)) ids) σ)
    as (σ' & HN & _ & Hserve).
  exists σ'. eexists. split; [exact HN|]. rewrite Hserve.
  pose (l := map (fun i => (record (before i), record (after i))) ids).
  replace (map (fun i => Some (marking record i)) ids)
    with (map (fun p => Some (around (RW:=RW) (Req:=Req) p.1 p.2)) l)
    by (subst l; by rewrite map_map).
  rewrite ServeHTTP_build_around. split; [reflexivity|].
  subst l. by rewrite trace_post, trace_pre, <- app_assoc.
Qed.

(** C3 (the code at the failing input).  [New] and [With] do not look at
    their arguments: with a nil handler anywhere among them, [New]
    returns an Onion whose registered sequence contains that nil
    handler, and so does [With] on the Onion that [New()] returns. *)
Theorem New_accepts_nil (pre post : list (Handler_iface RW Req World)) σ :
  (∃ σ', New_of (pre ++ None :: post) σ = Val (length (onions σ)) σ'
     ∧ registered σ' (length (onions σ)) = pre ++ None :: post)
  ∧ (∃ σ1 σ2, New_of [] σ = Val (length (onions σ)) σ1
       ∧ With growslice (length (onions σ)) (pre ++ None :: post) σ1
         = Val (S (length (onions σ))) σ2
       ∧ registered σ2 (S (length (onions σ))) = pre ++ None :: post).
Proof.
  split.
  - destruct (New_of_served (pre ++ None :: post) σ) as (σ' & HN & Hreg & _).
    by exists σ'.
  - set (σ1 := Heap (arrays σ) (onions σ ++ [mkOnion (build []) nil_slice])).
    assert (onions σ1 !! length (onions σ) = Some (mkOnion (build []) nil_slice))
      as Hn by (by apply list_lookup_middle).
    destruct (With_spec growslice _ _ (pre ++ None :: post) σ1 Hn)
      as (s' & σ2 & HW & Hon & _ & Hel & _); [split; cbn; lia|].
    assert (length (onions σ1) = S (length (onions σ))) as Hlen
      by (unfold σ1; cbn [onions]; rewrite length_app; cbn; lia).
    exists σ1, σ2. rewrite <- Hlen. split_and!; try done.
    unfold registered. rewrite Hon, list_lookup_middle by done.
    cbn [Onion_handlers]. by rewrite Hel.
Qed.

(** C5.  [Use(nil)] panics with the value "handler cannot be nil" before
    it reads or writes anything: the heap at the panic is the heap of the
    call, so the registered sequence, the composed middleware and what
    [ServeHTTP] does are those of before the call. *)
Theorem Use_nil_panics (n : nat) σ :
  ∃ σ', Use growslice n None σ = Abort "handler cannot be nil" σ'
    ∧ σ' = σ
    ∧ registered σ' n = registered σ n
    ∧ onions σ' !! n = onions σ !! n
    ∧ Onion_ServeHTTP σ' n = Onion_ServeHTTP σ n.
Proof. by exists σ. Qed.

(** C7.  If what [B] does is the same whatever continuation it is given,
    then serving a request with the Onion of [A, B, C] is [A] run with a
    continuation that is [B] alone: [C] has no part in the result, which
    is that of [B] given a continuation that would panic if it were
    called. *)
Theorem ServeHTTP_short_circuit (A B C : Handler RW Req World) σ rw r w :
  (∀ rw' r' (k k' : http_Handler RW Req World) w',
      B rw' r' k w' = B rw' r' k' w') →
  ∃ σ', New_of [Some A; Some B; Some C] σ = Val (length (onions σ)) σ'
    ∧ Onion_ServeHTTP σ' (length (onions σ)) rw r w
      = A rw r (fun rw' r' => B rw' r' nil_http_Handler) w.
Proof.
  intros HB.
  destruct (New_of_served [Some A; Some B; Some C] σ) as (σ' & HN & _ & Hserve).
  exists σ'. split; [exact HN|]. rewrite Hserve, !ServeHTTP_build_cons.
  f_equal. extensionality rw'. extensionality r'. extensionality w'.
  apply HB.
Qed.

(** C8.  [Wrap h] and [WrapFunc f] run the wrapped handler on [(rw, r)]
    and, once it has returned, call [next] on [(rw, r)] in the world that
    the wrapped handler left, whatever that world is; nothing else is
    done.  A panic of the wrapped handler is not recovered. *)
Theorem Wrap_calls_next (g : http_Handler RW Req World)
    (f : RW -> Req -> World -> outcome World)
    (next : http_Handler RW Req World) rw r w :
  Wrap g rw r next w
    = match g rw r w with
      | Returned w' => next rw r w'
      | Panicked v w' => Panicked v w'
      end
  ∧ WrapFunc f rw r next w
    = match f rw r w with
      | Returned w' => next rw r w'
      | Panicked v w' => Panicked v w'
      end.
Proof. by split. Qed.

(** C9.  [New()] returns an Onion, and serving any request with it
    returns normally in the world of the call. *)
Theorem ServeHTTP_empty σ rw r w :
  ∃ σ', New_of (RW:=RW) (Req:=Req) (World:=World) [] σ = Val (length (onions σ)) σ'
    ∧ Onion_ServeHTTP σ' (length (onions σ)) rw r w = Returned w.
Proof.
  destruct (New_of_served [] σ) as (σ' & HN & _ & Hserve).
  exists σ'. split; [exact HN|]. by rewrite Hserve.
Qed.

(** C10.  A chain link with a nil handler returns at once, in the world
    of the call, whatever its [next] is.  So an Onion made by [New] from
    a sequence with a nil handler serves a request as the chain of the
    handlers in front of the nil one does: those behind it are not
    called, and the nil link itself does not panic. *)
Theorem ServeHTTP_nil_link (pre post : list (Handler_iface RW Req World)) σ :
  (∀ nxt rw r w,
      middleware_ServeHTTP (Middleware (RW:=RW) (Req:=Req) None nxt) rw r w
      = Returned w)
  ∧ middleware_ServeHTTP (build (pre ++ None :: post))
    = middleware_ServeHTTP (build pre)
  ∧ ∃ σ', New_of (pre ++ None :: post) σ = Val (length (onions σ)) σ'
      ∧ Onion_ServeHTTP σ' (length (onions σ))
        = middleware_ServeHTTP (build pre).
Proof.
  split; [done|]. split; [apply ServeHTTP_build_truncate|].
  destruct (New_of_served (pre ++ None :: post) σ) as (σ' & HN & _ & Hserve).
  exists σ'. split; [exact HN|]. by rewrite Hserve, ServeHTTP_build_truncate.
Qed.

(** C2.  Let [p] be an Onion with a well-formed slice.  [p.With(hs1...)]
    and then [p.With(hs2...)] return two new Onions; the sequence of each
    is that of [p] followed by the arguments of the call, in an array
    that did not exist before, and its middleware is built from it.  [p]
    is the same object as before, with
    the same sequence.  After any number of [Use] calls on the two
    children, in any order, [p] is still the same and serves as before,
    and the sequence and the middleware of each child are made of the
    sequence of [p], the arguments of its own [With] and the handlers of
    its own [Use] calls only. *)
Theorem With_isolates (p : nat) o hs1 hs2
    (ops : list (nat * Handler RW Req World)) σ :
  let c1 := length (onions σ) in
  let c2 := S (length (onions σ)) in
  onions σ !! p = Some o →
  wf_slice σ (Onion_handlers o) →
  Forall (fun op => op.1 = c1 ∨ op.1 = c2) ops →
  ∃ σ1 σ2 σ3,
    With growslice p hs1 σ = Val c1 σ1
    ∧ With growslice p hs2 σ1 = Val c2 σ2
    ∧ Use_each growslice ops σ2 = Val tt σ3
    ∧ (registered σ1 c1 = registered σ p ++ hs1
       ∧ consistent σ1 c1
       ∧ (∃ oc, onions σ1 !! c1 = Some oc
                ∧ length (arrays σ) <= sptr (Onion_handlers oc))
       ∧ onions σ1 !! p = Some o
       ∧ registered σ1 p = registered σ p)
    ∧ (onions σ3 !! p = Some o
       ∧ registered σ3 p = registered σ p
       ∧ Onion_ServeHTTP σ3 p = Onion_ServeHTTP σ p)
    ∧ (registered σ3 c1 = registered σ p ++ hs1 ++ used_on c1 ops
       ∧ Onion_ServeHTTP σ3 c1
         = middleware_ServeHTTP (build (registered σ p ++ hs1 ++ used_on c1 ops)))
    ∧ (registered σ3 c2 = registered σ p ++ hs2 ++ used_on c2 ops
       ∧ Onion_ServeHTTP σ3 c2
         = middleware_ServeHTTP (build (registered σ p ++ hs2 ++ used_on c2 ops))).
Proof.
  intros c1 c2 Hp Hwf Hops.
  pose proof (lookup_lt_Some _ _ _ Hp) as Hplt.
  assert (registered σ p = elems σ (Onion_handlers o)) as Hreg
    by (unfold registered; by rewrite Hp).
  (* the first child *)
  destruct (With_spec growslice p o hs1 σ Hp Hwf)
    as (s1 & σ1 & HW1 & Hon1 & Hwf1 & Hel1 & Hp1 & Hfr1).
  assert (untouched σ σ1) as Hun1.
  { split; [done|]. intros q Hq. by rewrite Hon1, lookup_app_l. }
  assert (onions σ1 !! p = Some o) as Hp'.
  { destruct Hun1 as [_ H]. by rewrite H. }
  pose proof (wf_slice_untouched σ σ1 _ Hun1 Hwf) as Hwf'.
  pose proof (elems_untouched σ σ1 _ Hun1 Hwf) as Hel'.
  assert (onions σ1 !! c1 = Some (mkOnion (build (elems σ (Onion_handlers o) ++ hs1)) s1))
    as Hc1 by (rewrite Hon1; by apply list_lookup_middle).
  (* the second child *)
  destruct (With_spec growslice p o hs2 σ1 Hp' Hwf')
    as (s2 & σ2 & HW2 & Hon2 & Hwf2 & Hel2 & Hp2 & Hfr2).
  assert (length (onions σ1) = c2) as Hlen1
    by (rewrite Hon1, length_app; cbn; unfold c2; lia).
  rewrite Hlen1 in HW2. rewrite Hel' in Hon2, Hel2.
  assert (untouched σ σ2) as Hun2.
  { destruct Hun1 as [Ha1 Ho1]. split.
    - intros a Ha. rewrite Hfr2 by lia. by apply Ha1.
    - intros q Hq. rewrite Hon2, lookup_app_l by lia. by apply Ho1. }
  assert (owns σ2 (length (arrays σ)) c1 (elems σ (Onion_handlers o) ++ hs1)) as Hown1.
  { eexists. split.
    - rewrite Hon2, lookup_app_l by (unfold c1, c2 in *; lia). exact Hc1.
    - cbn [Onion_handlers Onion_middleware]. split_and!; try done; try lia.
      + apply (wf_slice_eq σ1); [apply Hfr2; lia|done].
      + rewrite <- Hel1. apply elems_eq, Hfr2. lia. }
  assert (owns σ2 (length (arrays σ)) c2 (elems σ (Onion_handlers o) ++ hs2)) as Hown2.
  { eexists. split.
    - rewrite Hon2, <- Hlen1. by apply list_lookup_middle.
    - cbn [Onion_handlers Onion_middleware]. split_and!; try done; lia. }
  assert (apart σ2 c1 c2) as Hap.
  { intros o1 o2. rewrite Hon2, lookup_app_l by (unfold c1, c2 in *; lia).
    rewrite Hc1, <- Hlen1, list_lookup_middle by done.
    intros [= <-] [= <-]. cbn [Onion_handlers]. lia. }
  (* the calls of Use *)
  destruct (Use_each_family growslice σ c1 c2 ops) with (σ := σ2)
      (V1 := elems σ (Onion_handlers o) ++ hs1)
      (V2 := elems σ (Onion_handlers o) ++ hs2)
    as (σ3 & HU & Hun3 & Hown1' & Hown2'); try done;
    [unfold c1, c2; lia..|].
  exists σ1, σ2, σ3. rewrite Hreg. split_and!; try done.
  - unfold registered. by rewrite Hc1.
  - eexists. split; [exact Hc1|]. cbn [Onion_handlers Onion_middleware].
    by rewrite Hel1.
  - eexists. split; [exact Hc1|]. cbn [Onion_handlers]. lia.
  - unfold registered. by rewrite Hp'.
  - destruct Hun3 as [_ H]. by rewrite H.
  - unfold registered. destruct Hun3 as [Ha H]. rewrite H, Hp by done.
    by apply elems_untouched.
  - unfold Onion_ServeHTTP. destruct Hun3 as [_ H]. by rewrite H.
  - rewrite app_assoc. by apply (owns_observed _ _ _ _ Hown1').
  - rewrite app_assoc. by apply (owns_observed _ _ _ _ Hown1').
  - rewrite app_assoc. by apply (owns_observed _ _ _ _ Hown2').
  - rewrite app_assoc. by apply (owns_observed _ _ _ _ Hown2').
Qed.

(** C4 (as amended).  [New] keeps the slice that it is given and builds
    the middleware from the elements that the slice has at the call.
    Assignments made afterwards to elements of that slice, or of any
    other slice, change no Onion: the Onion serves requests as the chain
    built from the elements of the call does. *)
Theorem New_middleware_is_kept s (ws : list (slice * nat * Handler_iface RW Req World)) σ :
  let n := length (onions σ) in
  ∃ σ1, New s σ = Val n σ1
    ∧ registered σ1 n = elems σ s
    ∧ Onion_ServeHTTP σ1 n = middleware_ServeHTTP (build (elems σ s))
    ∧ onions (heap_after (set_each ws σ1)) !! n = onions σ1 !! n
    ∧ Onion_ServeHTTP (heap_after (set_each ws σ1)) n
      = middleware_ServeHTTP (build (elems σ s)).
Proof.
  intros n. eexists. split; [apply New_Val|].
  unfold registered, Onion_ServeHTTP. rewrite set_each_onions.
  cbn [onions]. rewrite list_lookup_middle by done. by split_and!.
Qed.


End Specification.

(** ** The tests of the package, and the theorems at concrete inputs *)

(** [TestOnionServeHTTP]: two handlers that call [next] and a third that
    does not. *)
Example TestOnionServeHTTP :
  let σ := heap_after
             ((n <- New_of [] ;;
               _ <- Use Example.doubling n (Some (marking Example.record 1)) ;;
               _ <- Use Example.doubling n (Some (marking Example.record 2)) ;;
               Use Example.doubling n (Some (Example.terminal 3)))
                Example.no_heap) in
  Onion_ServeHTTP σ 0 tt tt []
  = Returned [before 1; before 2; before 3; after 2; after 1].
Proof. vm_compute. reflexivity. Qed.

(** [TestOnionWith_doNotModifyOriginal]: the children of a parent whose
    array has room left do not write into that array. *)
Example TestOnionWith_doNotModifyOriginal :
  let σ := heap_after
             ((n2 <- With Example.doubling 0 [Some (marking Example.record 2)] ;;
               n3 <- With Example.doubling 0 [Some (marking Example.record 3)] ;;
               _ <- UseHandlerFunc Example.doubling n2 Example.void ;;
               UseHandlerFunc Example.doubling n3 Example.void)
                Example.parent_heap) in
  Onion_ServeHTTP σ 0 tt tt [] = Returned [before 1; after 1]
  ∧ Onion_ServeHTTP σ 1 tt tt []
    = Returned [before 1; before 2; after 2; after 1]
  ∧ Onion_ServeHTTP σ 2 tt tt []
    = Returned [before 1; before 3; after 3; after 1]
  ∧ length <$> [registered σ 0; registered σ 1; registered σ 2] = [1; 3; 3].
Proof. vm_compute. by split_and!. Qed.

Lemma ServeHTTP_onion_order_witness :
  (∀ m w, Example.trace (Example.record m w) = Example.trace w ++ [m])
  ∧ ∃ σ' w',
      New_of (map (fun i => Some (marking (RW:=unit) (Req:=unit) Example.record i))
                [1; 2; 3]) Example.no_heap
        = Val (length (onions Example.no_heap)) σ'
      ∧ Onion_ServeHTTP σ' (length (onions Example.no_heap)) tt tt [] = Returned w'
      ∧ Example.trace w'
        = Example.trace [] ++ map before [1; 2; 3] ++ reverse (map after [1; 2; 3]).
Proof.
  split; [reflexivity|].
  apply (ServeHTTP_onion_order Example.record Example.trace [1; 2; 3]
           Example.no_heap tt tt []).
  reflexivity.
Defined.

Lemma ServeHTTP_short_circuit_witness :
  (∀ rw' r' (k k' : http_Handler unit unit Example.log) w',
      Example.terminal 2 rw' r' k w' = Example.terminal 2 rw' r' k' w')
  ∧ ∃ σ',
      New_of [Some (marking Example.record 1); Some (Example.terminal 2);
              Some (marking Example.record 3)] Example.no_heap
        = Val (length (onions Example.no_heap)) σ'
      ∧ Onion_ServeHTTP σ' (length (onions Example.no_heap)) tt tt []
        = marking Example.record 1 tt tt
            (fun rw' r' => Example.terminal 2 rw' r' nil_http_Handler) [].
Proof.
  split; [reflexivity|].
  apply (ServeHTTP_short_circuit (marking Example.record 1) (Example.terminal 2)
           (marking Example.record 3) Example.no_heap tt tt []).
  reflexivity.
Defined.

Lemma With_isolates_witness :
  let σ := Example.parent_heap in
  let hs1 := [Some (marking Example.record 2)] in
  let hs2 := [Some (marking Example.record 3)] in
  let ops := [(1, Wrap Example.void); (2, Wrap Example.void)] in
  let g := Example.doubling in
  onions σ !! 0 = Some Example.parent
  ∧ wf_slice σ (Onion_handlers Example.parent)
  ∧ Forall (fun op => op.1 = 1 ∨ op.1 = 2) ops
  ∧ ∃ σ1 σ2 σ3,
      With g 0 hs1 σ = Val 1 σ1
      ∧ With g 0 hs2 σ1 = Val 2 σ2
      ∧ Use_each g ops σ2 = Val tt σ3
      ∧ (registered σ1 1 = registered σ 0 ++ hs1
         ∧ consistent σ1 1
         ∧ (∃ oc, onions σ1 !! 1 = Some oc
                  ∧ length (arrays σ) <= sptr (Onion_handlers oc))
         ∧ onions σ1 !! 0 = Some Example.parent
         ∧ registered σ1 0 = registered σ 0)
      ∧ (onions σ3 !! 0 = Some Example.parent
         ∧ registered σ3 0 = registered σ 0
         ∧ Onion_ServeHTTP σ3 0 = Onion_ServeHTTP σ 0)
      ∧ (registered σ3 1 = registered σ 0 ++ hs1 ++ used_on 1 ops
         ∧ Onion_ServeHTTP σ3 1
           = middleware_ServeHTTP (build (registered σ 0 ++ hs1 ++ used_on 1 ops)))
      ∧ (registered σ3 2 = registered σ 0 ++ hs2 ++ used_on 2 ops
         ∧ Onion_ServeHTTP σ3 2
           = middleware_ServeHTTP (build (registered σ 0 ++ hs2 ++ used_on 2 ops))).
Proof.
  intros σ hs1 hs2 ops g.
  assert (onions σ !! 0 = Some Example.parent) as Hp by reflexivity.
  assert (wf_slice σ (Onion_handlers Example.parent)) as Hwf
    by (split; cbn; lia).
  assert (Forall (fun op : nat * Handler unit unit Example.log =>
                    op.1 = 1 ∨ op.1 = 2) ops) as Hops
    by (repeat constructor; cbn; auto).
  split; [exact Hp|]. split; [exact Hwf|]. split; [exact Hops|].
  exact (With_isolates g 0 Example.parent hs1 hs2 ops σ Hp Hwf Hops).
Defined.


(** C4 (as stated), at a concrete input.  The caller holds a slice [s]
    with one handler and calls [New(s...)]; the assignment [s[0] = nil]
    that it makes afterwards shows in the sequence that [Handlers]
    returns. *)
Lemma New_shares_the_callers_array :
  ∃ σ1 σ2,
    New Example.callers_slice Example.callers_heap = Val 0 σ1
    ∧ set_index Example.callers_slice 0 None σ1 = Val tt σ2
    ∧ Handlers 0 σ1 = Val Example.callers_slice σ1
    ∧ Handlers 0 σ2 = Val Example.callers_slice σ2
    ∧ registered σ1 0 = [Some (marking Example.record 1)]
    ∧ registered σ2 0 = [None]
    ∧ registered σ2 0 ≠ registered σ1 0.
Proof. eexists. eexists. split_and!; try reflexivity. discriminate. Qed.

(** ** Further properties of the chain *)

Section ChainMore.

Context {RW Req World : Type}.

Implicit Types (h : Handler RW Req World) (hs : list (Handler_iface RW Req World)).
Implicit Types (rw : RW) (r : Req) (w : World).

(** The handler at any position is called with the chain of the handlers
    behind it as [next]. *)
Lemma ServeHTTP_build_middle (pre post : list (Handler_iface RW Req World)) h :
  middleware_ServeHTTP (build (pre ++ Some h :: post))
  = middleware_ServeHTTP
      (build (pre ++ [Some (HandlerFunc (fun rw r _ =>
                              h rw r (middleware_ServeHTTP (build post))))])).
Proof.
  unfold Handler_iface in *.
  induction pre as [|[h'|] pre IH]; simpl app.
  - by rewrite !(ServeHTTP_build_cons (World:=World)).
  - by rewrite !(ServeHTTP_build_cons (World:=World)), IH.
  - by rewrite !(ServeHTTP_build_nil_head (World:=World)).
Qed.

(** X4.  A handler that does nothing, wrapped and registered last, does
    not change what the chain does: the [next] that the last handler
    receives returns at once. *)
Theorem Wrap_noop_last hs :
  middleware_ServeHTTP
    (build (hs ++ [Some (Wrap (http_HandlerFunc (fun _ _ w => Returned w)))]))
  = middleware_ServeHTTP (build hs).
Proof.
  unfold Handler_iface in *.
  induction hs as [|[h'|] hs IH]; simpl app.
  - done.
  - by rewrite !(ServeHTTP_build_cons (World:=World)), IH.
  - by rewrite !(ServeHTTP_build_nil_head (World:=World)).
Qed.

(** X5.  A handler, at any position, whose outcome does not depend on its
    continuation cuts the chain: the handlers behind it have no part in
    what the chain does. *)
Theorem ServeHTTP_cut (pre post : list (Handler_iface RW Req World)) h :
  (∀ rw r (k k' : http_Handler RW Req World) w, h rw r k w = h rw r k' w) →
  middleware_ServeHTTP (build (pre ++ Some h :: post))
  = middleware_ServeHTTP (build (pre ++ [Some h])).
Proof.
  intros Hh.
  etrans; [apply ServeHTTP_build_middle|].
  etrans; [|symmetry; apply (ServeHTTP_build_middle pre [] h)].
  assert (HandlerFunc (fun rw r (_ : http_Handler RW Req World) =>
                         h rw r (middleware_ServeHTTP (build post)))
          = HandlerFunc (fun rw r (_ : http_Handler RW Req World) =>
                           h rw r (middleware_ServeHTTP (build []))))
    as ->; [|done].
  unfold HandlerFunc.
  extensionality rw. extensionality r. extensionality k. extensionality w.
  apply Hh.
Qed.

(** X6.  A chain of wrapped plain handlers runs them one after the other
    on [(rw, r)], and stops at the first that panics. *)
Theorem ServeHTTP_wrapped (gs : list (http_Handler RW Req World)) rw r w :
  middleware_ServeHTTP (build (map (fun g => Some (Wrap g)) gs)) rw r w
  = in_sequence gs rw r w.
Proof.
  revert w. induction gs as [|g gs IH]; intros w; [done|].
  cbn [map in_sequence]. rewrite (ServeHTTP_build_cons (World:=World)).
  unfold Wrap at 1, HandlerFunc. f_equal.
  extensionality w'. apply IH.
Qed.

(** X7.  The chain recovers no panic.  When the handlers in front run
    [pre], call [next] and then run [post], and the handler behind them
    panics, the chain panics with the same value in the same world: none
    of the [post] parts is run. *)
Theorem ServeHTTP_panic_unwinds
    (l : list ((World -> World) * (World -> World))) h
    (post : list (Handler_iface RW Req World)) rw r w v w' :
  h rw r (middleware_ServeHTTP (build post)) (foldl (fun acc p => p.1 acc) w l)
    = Panicked v w' →
  middleware_ServeHTTP
    (build (map (fun p => Some (around (RW:=RW) (Req:=Req) p.1 p.2)) l
              ++ Some h :: post)) rw r w
  = Panicked v w'.
Proof.
  revert w. induction l as [|[f g] l IH]; intros w Hh; cbn [map app foldl] in *.
  - by rewrite (ServeHTTP_build_cons (World:=World)).
  - rewrite (ServeHTTP_build_cons (World:=World)). unfold around at 1, HandlerFunc.
    cbn [fst snd] in *. by rewrite (IH _ Hh).
Qed.

End ChainMore.

(** ** Further properties of the heap operations *)

Section HeapMore.

Context {RW Req World : Type}.
Variable growslice : nat -> nat -> nat.

Implicit Types (h : Handler RW Req World) (hs : list (Handler_iface RW Req World)).
Implicit Types (σ : heap RW Req World) (s : slice) (o : Onion RW Req World).
Implicit Types (rw : RW) (r : Req) (w : World).

Lemma Use_step n o h σ s' σ1 :
  onions σ !! n = Some o →
  append growslice (Onion_handlers o) [Some h] σ = Val s' σ1 →
  onions σ1 = onions σ →
  Use growslice n (Some h) σ
  = Val tt (Heap (arrays σ1)
              (<[n := mkOnion (build (elems σ1 s')) s']> (onions σ))).
Proof.
  intros Hn Happ Hon. pose proof (lookup_lt_Some _ _ _ Hn) as Hlt.
  unfold Use. rewrite (bind_Val _ _ _ _ _ (load_Some _ _ _ Hn)).
  rewrite (bind_Val _ _ _ _ _ Happ).
  rewrite <- Hon in Hn, Hlt.
  rewrite (bind_Val _ _ _ _ _ (store_handlers_Val _ _ s' _ Hn)).
  erewrite bind_Val by (apply load_Some, list_lookup_insert_eq, Hlt).
  erewrite bind_Val by reflexivity.
  erewrite store_middleware_Val by (apply list_lookup_insert_eq, Hlt).
  cbn [onions arrays Onion_handlers]. by rewrite list_insert_insert_eq, Hon.
Qed.

(** Where [Use] puts the grown sequence: in the array of the slice when
    it has room, with nothing else written and nothing allocated; in a
    fresh array otherwise, with every array that existed left as it
    was. *)
Lemma Use_storage n o h σ :
  onions σ !! n = Some o →
  wf_slice σ (Onion_handlers o) →
  ∃ s' σ', Use growslice n (Some h) σ = Val tt σ'
    ∧ onions σ'
      = <[n := mkOnion (build (elems σ (Onion_handlers o) ++ [Some h])) s']>
          (onions σ)
    ∧ wf_slice σ' s'
    ∧ elems σ' s' = elems σ (Onion_handlers o) ++ [Some h]
    ∧ ((slen (Onion_handlers o) < scap (Onion_handlers o)
        ∧ s' = Slice (sptr (Onion_handlers o)) (soff (Onion_handlers o))
                 (S (slen (Onion_handlers o))) (scap (Onion_handlers o))
        ∧ sptr (Onion_handlers o) < length (arrays σ)
        ∧ length (arrays σ') = length (arrays σ)
        ∧ ∀ a, a ≠ sptr (Onion_handlers o) → arrays σ' !! a = arrays σ !! a)
       ∨ (scap (Onion_handlers o) <= slen (Onion_handlers o)
          ∧ sptr s' = length (arrays σ)
          ∧ length (arrays σ') = S (length (arrays σ))
          ∧ ∀ a, a < length (arrays σ) → arrays σ' !! a = arrays σ !! a)).
Proof.
  intros Hn Hwf. set (s := Onion_handlers o) in *.
  destruct (append_spec growslice s [Some h] σ Hwf)
    as (s' & σ1 & Happ & Hon & Hwf' & Hel & _).
  exists s', (Heap (arrays σ1)
               (<[n := mkOnion (build (elems σ1 s')) s']> (onions σ))).
  split; [by apply (Use_step n o)|].
  cbn [onions arrays]. split; [by rewrite Hel|].
  split; [done|]. split; [done|].
  unfold append in Happ. cbn [length] in Happ. case_decide as Hfit.
  - left. unfold bind, store_array, ret in Happ. injection Happ as <- <-.
    cbn [arrays]. split_and!.
    + lia.
    + f_equal. lia.
    + destruct (decide (sptr s < length (arrays σ))) as [|Hge]; [done|].
      destruct (wf_unallocated σ s Hwf); lia.
    + by rewrite length_insert.
    + intros a Ha. by rewrite list_lookup_insert_ne.
  - right. unfold bind, alloc_array, ret in Happ. injection Happ as <- <-.
    cbn [arrays sptr]. split_and!.
    + lia.
    + done.
    + rewrite length_app. cbn. lia.
    + intros a Ha. by rewrite lookup_app_l.
Qed.

(** The slice that [New(h1, ..., hk)] stores is well formed. *)
Lemma New_of_Val_wf hs σ :
  ∃ s σ', New_of hs σ = Val (length (onions σ)) σ'
    ∧ onions σ' = onions σ ++ [mkOnion (build hs) s]
    ∧ elems σ' s = hs
    ∧ wf_slice σ' s.
Proof.
  destruct hs as [|x hs].
  - exists nil_slice. eexists. split; [reflexivity|]. split_and!; try done.
    split; cbn; lia.
  - eexists. eexists. unfold New_of, variadic, New, bind, alloc_array, ret,
      read_elems, alloc_Onion.
    rewrite elems_alloc_whole. split; [reflexivity|]. cbn [onions arrays].
    split; [done|]. split; [apply (elems_alloc_whole σ (x :: hs))|].
    split; cbn [slen scap soff sptr]; [lia|].
    rewrite array_at_alloc. cbn. lia.
Qed.

(** X1.  [Use] of a handler that is not nil, on an Onion that exists and
    whose slice is well formed, returns.  The handler is now the last of
    the registered sequence, [ServeHTTP] runs the chain of the grown
    sequence, and every other Onion is the object it was. *)
Theorem Use_appends n o h σ :
  onions σ !! n = Some o →
  wf_slice σ (Onion_handlers o) →
  ∃ σ', Use growslice n (Some h) σ = Val tt σ'
    ∧ registered σ' n = registered σ n ++ [Some h]
    ∧ Onion_ServeHTTP σ' n
      = middleware_ServeHTTP (build (registered σ n ++ [Some h]))
    ∧ length (onions σ') = length (onions σ)
    ∧ ∀ q, q ≠ n → onions σ' !! q = onions σ !! q.
Proof.
  intros Hn Hwf. pose proof (lookup_lt_Some _ _ _ Hn) as Hlt.
  destruct (Use_spec growslice n o h σ Hn Hwf)
    as (s' & σ' & HUse & Hon & _ & Hel & _).
  exists σ'. split; [done|].
  unfold registered, Onion_ServeHTTP.
  rewrite Hon, list_lookup_insert_eq, Hn by done.
  cbn [Onion_handlers Onion_middleware]. split_and!; try done.
  - by rewrite length_insert.
  - intros q Hq. by rewrite list_lookup_insert_ne.
Qed.

(** [Use] called again and again on one Onion. *)
Lemma Use_each_one n (hs' : list (Handler RW Req World)) :
  ∀ σ o, onions σ !! n = Some o →
    wf_slice σ (Onion_handlers o) →
    Onion_middleware o = build (elems σ (Onion_handlers o)) →
    ∃ σ' o', Use_each growslice (map (fun h => (n, h)) hs') σ = Val tt σ'
      ∧ onions σ' !! n = Some o'
      ∧ wf_slice σ' (Onion_handlers o')
      ∧ elems σ' (Onion_handlers o') = elems σ (Onion_handlers o) ++ map Some hs'
      ∧ Onion_middleware o' = build (elems σ' (Onion_handlers o')).
Proof.
  induction hs' as [|h hs' IH]; intros σ o Hn Hwf Hm.
  - exists σ, o. by rewrite app_nil_r.
  - destruct (Use_spec growslice n o h σ Hn Hwf)
      as (s' & σ1 & HUse & Hon & Hwf' & Hel & _).
    pose proof (lookup_lt_Some _ _ _ Hn) as Hlt.
    destruct (IH σ1 (mkOnion (build (elems σ (Onion_handlers o) ++ [Some h])) s'))
      as (σ' & o' & HU & Hn' & Hwf'' & Hel' & Hm').
    + by rewrite Hon, list_lookup_insert_eq.
    + done.
    + cbn [Onion_handlers Onion_middleware]. by rewrite Hel.
    + exists σ', o'. cbn [map Use_each fst snd].
      rewrite (bind_Val _ _ _ _ _ HUse). split_and!; try done.
      rewrite Hel'. cbn [Onion_handlers]. by rewrite Hel, <- app_assoc.
Qed.

(** X2.  [New(hs...)] followed by [Use] of further handlers, none of them
    nil, gives an Onion whose sequence is [hs] followed by those
    handlers, and which serves requests as the Onion that [New] makes
    from the whole sequence at once. *)
Theorem New_then_Use hs (hs' : list (Handler RW Req World)) σ :
  let n := length (onions σ) in
  ∃ σ1 σ2 σ3,
    New_of hs σ = Val n σ1
    ∧ Use_each growslice (map (fun h => (n, h)) hs') σ1 = Val tt σ2
    ∧ registered σ2 n = hs ++ map Some hs'
    ∧ Onion_ServeHTTP σ2 n = middleware_ServeHTTP (build (hs ++ map Some hs'))
    ∧ New_of (hs ++ map Some hs') σ = Val n σ3
    ∧ Onion_ServeHTTP σ3 n = Onion_ServeHTTP σ2 n.
Proof.
  intros n. destruct (New_of_Val_wf hs σ) as (s & σ1 & HN & Ho & Hs & Hwf).
  assert (onions σ1 !! n = Some (mkOnion (build hs) s)) as Hn
    by (rewrite Ho; by apply list_lookup_middle).
  destruct (Use_each_one n hs' σ1 _ Hn Hwf) as (σ2 & o' & HU & Hn' & _ & Hel & Hm).
  { cbn [Onion_handlers Onion_middleware]. by rewrite Hs. }
  destruct (New_of_served (hs ++ map Some hs') σ) as (σ3 & HN3 & _ & Hserve).
  cbn [Onion_handlers] in Hel. rewrite Hs in Hel.
  exists σ1, σ2, σ3. unfold registered, Onion_ServeHTTP at 1 3.
  rewrite Hn', Hm, Hel. by split_and!.
Qed.

(** X3.  [With] nests: the Onion that [p.With(a...).With(b...)] returns
    has the sequence of [p] followed by [a] and then [b], and serves
    requests as the Onion that [p.With] of [a] and [b] together returns;
    the Onion in between is not changed by the second call. *)
Theorem With_With (p : nat) o (a b : list (Handler_iface RW Req World)) σ :
  let c1 := length (onions σ) in
  let c2 := S (length (onions σ)) in
  onions σ !! p = Some o →
  wf_slice σ (Onion_handlers o) →
  ∃ σ1 σ2 σ3,
    With growslice p a σ = Val c1 σ1
    ∧ With growslice c1 b σ1 = Val c2 σ2
    ∧ registered σ2 c2 = registered σ p ++ a ++ b
    ∧ Onion_ServeHTTP σ2 c2
      = middleware_ServeHTTP (build (registered σ p ++ a ++ b))
    ∧ onions σ2 !! c1 = onions σ1 !! c1
    ∧ registered σ2 c1 = registered σ p ++ a
    ∧ With growslice p (a ++ b) σ = Val c1 σ3
    ∧ registered σ3 c1 = registered σ2 c2
    ∧ Onion_ServeHTTP σ3 c1 = Onion_ServeHTTP σ2 c2.
Proof.
  intros c1 c2 Hp Hwf.
  assert (registered σ p = elems σ (Onion_handlers o)) as Hreg
    by (unfold registered; by rewrite Hp).
  destruct (With_spec growslice p o a σ Hp Hwf)
    as (s1 & σ1 & HW1 & Hon1 & Hwf1 & Hel1 & Hp1 & Hfr1).
  assert (onions σ1 !! c1 = Some (mkOnion (build (elems σ (Onion_handlers o) ++ a)) s1))
    as Hc1 by (rewrite Hon1; by apply list_lookup_middle).
  destruct (With_spec growslice c1 _ b σ1 Hc1 Hwf1)
    as (s2 & σ2 & HW2 & Hon2 & Hwf2 & Hel2 & Hp2 & Hfr2).
  cbn [Onion_handlers] in Hon2, Hel2.
  assert (length (onions σ1) = c2) as Hlen1
    by (rewrite Hon1, length_app; cbn; unfold c2; lia).
  rewrite Hlen1 in HW2. rewrite Hel1, <- app_assoc in Hon2, Hel2.
  destruct (With_spec growslice p o (a ++ b) σ Hp Hwf)
    as (s3 & σ3 & HW3 & Hon3 & _ & Hel3 & _).
  assert (onions σ2 !! c1 = onions σ1 !! c1) as Hsame
    by (rewrite Hon2; apply lookup_app_l; unfold c1, c2 in *; lia).
  assert (onions σ2 !! c2
          = Some (mkOnion (build (elems σ (Onion_handlers o) ++ a ++ b)) s2))
    as Hc2 by (rewrite Hon2, <- Hlen1; by apply list_lookup_middle).
  assert (onions σ3 !! c1
          = Some (mkOnion (build (elems σ (Onion_handlers o) ++ a ++ b)) s3))
    as Hc3 by (rewrite Hon3; by apply list_lookup_middle).
  assert (elems σ2 s1 = elems σ1 s1) as Hs1 by (apply elems_eq, Hfr2; lia).
  exists σ1, σ2, σ3. rewrite Hreg. unfold registered, Onion_ServeHTTP.
  rewrite Hsame, Hc1, Hc2, Hc3.
  cbn [Onion_handlers Onion_middleware]. rewrite Hel3, Hel2, Hs1, Hel1.
  by split_and!.
Qed.

(** X9.  [New] keeps the slice of the caller, so what a later [Use] does
    to the caller's array depends on the capacity of that slice.  With
    room left, [Use] allocates nothing and writes the handler into the
    caller's array, in the cell behind the last element of the slice;
    without room, it moves the sequence to a fresh array and leaves every
    array that existed as it was. *)
Theorem New_Use_storage s h σ :
  let n := length (onions σ) in
  wf_slice σ s →
  ∃ σ1 σ2,
    New s σ = Val n σ1
    ∧ Use growslice n (Some h) σ1 = Val tt σ2
    ∧ registered σ2 n = elems σ s ++ [Some h]
    ∧ (slen s < scap s →
         length (arrays σ2) = length (arrays σ)
         ∧ array_at σ2 (sptr s) !! (soff s + slen s) = Some (Some h))
    ∧ (scap s <= slen s →
         ∀ a, a < length (arrays σ) → arrays σ2 !! a = arrays σ !! a).
Proof.
  intros n Hwf.
  set (o := mkOnion (RW:=RW) (Req:=Req) (World:=World) (build (elems σ s)) s).
  set (σ1 := Heap (arrays σ) (onions σ ++ [o])).
  assert (onions σ1 !! n = Some o) as Hn by (by apply list_lookup_middle).
  assert (length (onions σ1) = S n) as Hlen
    by (unfold σ1; cbn [onions]; rewrite length_app; cbn; unfold n; lia).
  pose proof (wf_elems_length σ s Hwf) as HL.
  destruct (Use_storage n o h σ1 Hn Hwf)
    as (s' & σ2 & HUse & Hon & Hwf' & Hel & Hcase).
  unfold o in Hel, Hcase, Hon. cbn [Onion_handlers] in Hel, Hcase, Hon.
  exists σ1, σ2. split; [apply New_Val|]. split; [done|]. split_and!.
  - unfold registered. rewrite Hon, list_lookup_insert_eq by lia.
    cbn [Onion_handlers]. done.
  - intros Hroom. destruct Hcase as [(_ & -> & _ & Hsame & _)|(? & _)]; [|lia].
    split; [done|].
    assert ((elems σ2 (Slice (sptr s) (soff s) (S (slen s)) (scap s))) !! slen s
            = Some (Some h)) as Hcell.
    { rewrite Hel. apply list_lookup_middle. by rewrite <- HL. }
    unfold elems in Hcell. cbn [sptr soff slen] in Hcell.
    by rewrite lookup_take_lt, lookup_drop in Hcell by lia.
  - intros Hfull. destruct Hcase as [(? & _)|(_ & _ & _ & Hfr)]; [lia|].
    done.
Qed.

(** *** Programs that make all their Onions themselves *)

Lemma wf_nil_slice σ : wf_slice σ nil_slice.
Proof. split; cbn; lia. Qed.

Lemma tidy_wf σ n o : tidy σ → onions σ !! n = Some o → wf_slice σ (Onion_handlers o).
Proof.
  intros Ht Hn. destruct (Ht n o Hn) as [_ [->|(Hwf & _)]]; [|done].
  apply wf_nil_slice.
Qed.

Lemma tidy_allocated σ n o :
  tidy σ → onions σ !! n = Some o → Onion_handlers o ≠ nil_slice →
  sptr (Onion_handlers o) < length (arrays σ).
Proof. intros Ht Hn Hnil. by destruct (Ht n o Hn) as [_ [?|(_ & ? & _)]]. Qed.

Lemma heap_after_ret {A} (m : M RW Req World A) σ :
  heap_after ((_ <- m ;; ret tt) σ) = heap_after (m σ).
Proof. unfold bind. by destruct (m σ). Qed.

(** A new Onion whose slice is nil or lies in an array that is new as
    well. *)
Lemma tidy_extend σ σ' o :
  tidy σ →
  onions σ' = onions σ ++ [o] →
  length (arrays σ) <= length (arrays σ') →
  (∀ a, a < length (arrays σ) → arrays σ' !! a = arrays σ !! a) →
  Onion_middleware o = build (elems σ' (Onion_handlers o)) →
  Onion_handlers o = nil_slice
  ∨ (wf_slice σ' (Onion_handlers o)
     ∧ length (arrays σ) <= sptr (Onion_handlers o) < length (arrays σ')) →
  tidy σ'.
Proof.
  intros Ht Hon Hlen Hfr Hm Hcl n0 o0 Hn0. rewrite Hon in Hn0.
  destruct (decide (n0 < length (onions σ))) as [Hlt|Hge].
  - rewrite lookup_app_l in Hn0 by done.
    destruct (Ht n0 o0 Hn0) as [Hm0 Hcl0].
    destruct (decide (Onion_handlers o0 = nil_slice)) as [Hnil|Hnil].
    { split; [|by left]. rewrite Hm0, Hnil. done. }
    destruct Hcl0 as [?|(Hwf0 & Hp0 & Hd0)]; [done|].
    pose proof (Hfr _ Hp0) as Hsame. split.
    + by rewrite Hm0, (elems_eq σ σ').
    + right. split_and!; [by apply (wf_slice_eq σ)|lia|].
      intros n' o' Hne Hn' Hnil'. rewrite Hon in Hn'.
      destruct (decide (n' < length (onions σ))) as [Hlt'|Hge'].
      * rewrite lookup_app_l in Hn' by done. by apply (Hd0 n' o').
      * rewrite lookup_app_r in Hn' by lia.
        apply list_lookup_singleton_Some in Hn' as [_ <-].
        destruct Hcl as [?|(_ & ? & _)]; [done|lia].
  - pose proof (lookup_lt_Some _ _ _ Hn0) as Hb.
    rewrite length_app in Hb. cbn in Hb.
    assert (n0 = length (onions σ)) as -> by lia.
    rewrite list_lookup_middle in Hn0 by done. injection Hn0 as <-.
    split; [done|]. destruct Hcl as [?|(Hwf & Hp1 & Hp2)]; [by left|right].
    split_and!; [done..|].
    intros n' o' Hne Hn' Hnil'. rewrite Hon in Hn'.
    assert (n' < length (onions σ)) as Hlt'.
    { apply lookup_lt_Some in Hn'. rewrite length_app in Hn'. cbn in Hn'. lia. }
    rewrite lookup_app_l in Hn' by done.
    pose proof (tidy_allocated σ n' o' Ht Hn' Hnil'). lia.
Qed.

(** An Onion whose slice stays in its array, of which only that array
    may have changed, or moves to a new array. *)
Lemma tidy_update σ σ' n o o1 :
  tidy σ →
  onions σ !! n = Some o →
  onions σ' = <[n := o1]> (onions σ) →
  Onion_middleware o1 = build (elems σ' (Onion_handlers o1)) →
  wf_slice σ' (Onion_handlers o1) →
  (Onion_handlers o ≠ nil_slice
   ∧ sptr (Onion_handlers o1) = sptr (Onion_handlers o)
   ∧ length (arrays σ') = length (arrays σ)
   ∧ ∀ a, a ≠ sptr (Onion_handlers o) → arrays σ' !! a = arrays σ !! a)
  ∨ (sptr (Onion_handlers o1) = length (arrays σ)
     ∧ length (arrays σ') = S (length (arrays σ))
     ∧ ∀ a, a < length (arrays σ) → arrays σ' !! a = arrays σ !! a) →
  tidy σ'.
Proof.
  intros Ht Hn Hon Hm1 Hwf1 Hcase n0 o0 Hn0. rewrite Hon in Hn0.
  pose proof (lookup_lt_Some _ _ _ Hn) as Hlt.
  destruct (decide (n0 = n)) as [->|Hne0].
  - rewrite list_lookup_insert_eq in Hn0 by done. injection Hn0 as <-.
    split; [done|]. right. split; [done|].
    destruct Hcase as [(Hnil & Hp & Hlen & Hfr)|(Hp & Hlen & Hfr)].
    + pose proof (tidy_allocated σ n o Ht Hn Hnil) as Ha.
      split; [lia|]. intros n' o' Hne Hn' Hnil'. rewrite Hon in Hn'.
      rewrite list_lookup_insert_ne in Hn' by done. rewrite Hp.
      destruct (Ht n o Hn) as [_ [?|(_ & _ & Hd)]]; [done|].
      by apply (Hd n' o').
    + split; [lia|]. intros n' o' Hne Hn' Hnil'. rewrite Hon in Hn'.
      rewrite list_lookup_insert_ne in Hn' by done.
      pose proof (tidy_allocated σ n' o' Ht Hn' Hnil'). lia.
  - rewrite list_lookup_insert_ne in Hn0 by done.
    destruct (Ht n0 o0 Hn0) as [Hm0 Hcl0].
    destruct (decide (Onion_handlers o0 = nil_slice)) as [Hnil0|Hnil0].
    { split; [|by left]. rewrite Hm0, Hnil0. done. }
    destruct Hcl0 as [?|(Hwf0 & Hp0 & Hd0)]; [done|].
    assert (arrays σ' !! sptr (Onion_handlers o0)
            = arrays σ !! sptr (Onion_handlers o0)
            ∧ sptr (Onion_handlers o0) < length (arrays σ')
            ∧ sptr (Onion_handlers o1) ≠ sptr (Onion_handlers o0))
      as (Hsame & Hp0' & Hne1).
    { destruct Hcase as [(Hnil & Hp & Hlen & Hfr)|(Hp & Hlen & Hfr)].
      - destruct (Ht n o Hn) as [_ [?|(_ & _ & Hd)]]; [done|].
        pose proof (Hd n0 o0 Hne0 Hn0 Hnil0) as Hdiff.
        split_and!; [by apply Hfr|lia|congruence].
      - split_and!; [by apply Hfr|lia|lia]. }
    split.
    + by rewrite Hm0, (elems_eq σ σ').
    + right. split_and!; [by apply (wf_slice_eq σ)|done|].
      intros n' o' Hne Hn' Hnil'. rewrite Hon in Hn'.
      destruct (decide (n' = n)) as [->|Hne'].
      * rewrite list_lookup_insert_eq in Hn' by done. by injection Hn' as <-.
      * rewrite list_lookup_insert_ne in Hn' by done. by apply (Hd0 n' o').
Qed.

Lemma New_of_cons_Val (x : Handler_iface RW Req World) hs σ :
  New_of (x :: hs) σ
  = Val (length (onions σ))
        (Heap (arrays σ ++ [x :: hs])
           (onions σ ++ [mkOnion (build (x :: hs))
                           (Slice (length (arrays σ)) 0
                              (length (x :: hs)) (length (x :: hs)))])).
Proof.
  unfold New_of, variadic, New, bind, alloc_array, ret, read_elems, alloc_Onion.
  by rewrite elems_alloc_whole.
Qed.

Lemma tidy_New_of hs σ : tidy σ → tidy (heap_after (New_of hs σ)).
Proof.
  intros Ht. destruct hs as [|x hs].
  - eapply (tidy_extend σ); [done|reflexivity|done|done|done|by left].
  - rewrite New_of_cons_Val. cbn [heap_after].
    eapply (tidy_extend σ); [done|reflexivity|..].
    + cbn [arrays]. rewrite length_app. lia.
    + intros a Ha. cbn [arrays]. by rewrite lookup_app_l.
    + cbn [Onion_middleware Onion_handlers].
      by rewrite (elems_alloc_whole σ (x :: hs)).
    + right. cbn [Onion_handlers sptr arrays]. split.
      * split; cbn [slen scap soff sptr]; [lia|].
        rewrite array_at_alloc. cbn. lia.
      * rewrite length_app. cbn. lia.
Qed.

Lemma tidy_With n hs σ : tidy σ → tidy (heap_after (With growslice n hs σ)).
Proof.
  intros Ht. destruct (onions σ !! n) as [o|] eqn:Hn.
  - destruct (With_spec growslice n o hs σ Hn (tidy_wf σ n o Ht Hn))
      as (s' & σ' & HW & Hon & Hwf' & Hel & Hp & Hfr).
    rewrite HW. cbn [heap_after].
    eapply (tidy_extend σ); [done|exact Hon|lia|done|..].
    + cbn [Onion_middleware Onion_handlers]. by rewrite Hel.
    + right. by cbn [Onion_handlers].
  - unfold With, bind, load. by rewrite Hn.
Qed.

Lemma tidy_Use n (x : Handler_iface RW Req World) σ :
  tidy σ → tidy (heap_after (Use growslice n x σ)).
Proof.
  intros Ht. destruct x as [h|]; [|done].
  destruct (onions σ !! n) as [o|] eqn:Hn.
  - destruct (Use_storage n o h σ Hn (tidy_wf σ n o Ht Hn))
      as (s' & σ' & HUse & Hon & Hwf' & Hel & Hcase).
    rewrite HUse. cbn [heap_after].
    eapply (tidy_update σ σ' n o); [done|done|exact Hon|..].
    + cbn [Onion_middleware Onion_handlers]. by rewrite Hel.
    + done.
    + cbn [Onion_handlers].
      destruct Hcase as [(Hroom & -> & Ha & Hlen & Hfr)|(Hfull & Hp & Hlen & Hfr)].
      * left. split_and!; try done.
        intros Hnil. rewrite Hnil in Hroom. cbn in Hroom. lia.
      * by right.
  - unfold Use, bind, load. by rewrite Hn.
Qed.

Lemma tidy_perform (c : call RW Req World) σ :
  tidy σ → tidy (heap_after (perform growslice c σ)).
Proof.
  intros Ht. destruct c; cbn [perform]; rewrite ?heap_after_ret.
  - by apply tidy_New_of.
  - by apply tidy_With.
  - by apply tidy_Use.
  - by apply tidy_Use.
  - by apply tidy_Use.
  - by apply tidy_Use.
Qed.

Lemma tidy_perform_all (cs : list (call RW Req World)) σ :
  tidy σ → tidy (perform_all growslice cs σ).
Proof.
  revert σ. induction cs as [|c cs IH]; intros σ Ht; [done|].
  cbn [perform_all]. by apply IH, tidy_perform.
Qed.

(** X8.  In a program that starts without Onions and makes and changes
    them only by [New(h1, ..., hk)], [With], [Use], [UseFunc],
    [UseHandler] and [UseHandlerFunc], whatever the arguments and the
    order of the calls, every Onion at every moment has a well-formed
    slice and a middleware built from the sequence registered in it, so
    that [ServeHTTP] runs the chain of that sequence. *)
Theorem perform_all_in_sync (cs : list (call RW Req World)) n o :
  let σ := perform_all growslice cs (Heap [] []) in
  onions σ !! n = Some o →
  wf_slice σ (Onion_handlers o) ∧ in_sync σ n.
Proof.
  intros σ Hn.
  assert (tidy σ) as Ht.
  { apply tidy_perform_all. intros n0 o0 Hn0. by cbn in Hn0. }
  split; [by apply (tidy_wf σ n)|].
  apply consistent_in_sync. exists o. split; [done|].
  by destruct (Ht n o Hn).
Qed.

End HeapMore.


(** ** The further theorems at concrete inputs *)

Lemma ServeHTTP_cut_witness :
  (∀ rw r (k k' : http_Handler unit unit Example.log) w,
      Example.terminal 2 rw r k w = Example.terminal 2 rw r k' w)
  ∧ middleware_ServeHTTP
      (build ([Some (marking Example.record 1)] ++ Some (Example.terminal 2)
                :: [Some (marking Example.record 3); Some Sample.boom]))
    = middleware_ServeHTTP
        (build ([Some (marking Example.record 1)] ++ [Some (Example.terminal 2)])).
Proof.
  split; [reflexivity|].
  apply (ServeHTTP_cut [Some (marking Example.record 1)]
           [Some (marking Example.record 3); Some Sample.boom]
           (Example.terminal 2)).
  reflexivity.
Defined.

Lemma ServeHTTP_panic_unwinds_witness :
  let l := [(Example.record (before 1), Example.record (after 1));
            (Example.record (before 2), Example.record (after 2))] in
  Sample.boom tt tt (middleware_ServeHTTP (build [Some (marking Example.record 3)]))
    (foldl (fun acc p => p.1 acc) [] l)
    = Panicked "boom" [before 1; before 2]
  ∧ middleware_ServeHTTP
      (build (map (fun p => Some (around (RW:=unit) (Req:=unit) p.1 p.2)) l
                ++ Some Sample.boom :: [Some (marking Example.record 3)])) tt tt []
    = Panicked "boom" [before 1; before 2].
Proof.
  intros l. split; [reflexivity|].
  apply (ServeHTTP_panic_unwinds l Sample.boom [Some (marking Example.record 3)]
           tt tt [] "boom" [before 1; before 2]).
  reflexivity.
Defined.

Lemma Use_appends_witness :
  let σ := Example.parent_heap in
  let g := Example.doubling in
  let h := marking Example.record 2 in
  onions σ !! 0 = Some Example.parent
  ∧ wf_slice σ (Onion_handlers Example.parent)
  ∧ ∃ σ', Use g 0 (Some h) σ = Val tt σ'
      ∧ registered σ' 0 = registered σ 0 ++ [Some h]
      ∧ Onion_ServeHTTP σ' 0
        = middleware_ServeHTTP (build (registered σ 0 ++ [Some h]))
      ∧ length (onions σ') = length (onions σ)
      ∧ ∀ q, q ≠ 0 → onions σ' !! q = onions σ !! q.
Proof.
  intros σ g h.
  assert (onions σ !! 0 = Some Example.parent) as Hp by reflexivity.
  assert (wf_slice σ (Onion_handlers Example.parent)) as Hwf
    by (split; cbn; lia).
  split; [exact Hp|]. split; [exact Hwf|].
  exact (Use_appends g 0 Example.parent h σ Hp Hwf).
Defined.

Lemma With_With_witness :
  let σ := Example.parent_heap in
  let g := Example.doubling in
  let a := [Some (marking Example.record 2)] in
  let b := [Some (marking Example.record 3)] in
  onions σ !! 0 = Some Example.parent
  ∧ wf_slice σ (Onion_handlers Example.parent)
  ∧ ∃ σ1 σ2 σ3,
      With g 0 a σ = Val 1 σ1
      ∧ With g 1 b σ1 = Val 2 σ2
      ∧ registered σ2 2 = registered σ 0 ++ a ++ b
      ∧ Onion_ServeHTTP σ2 2
        = middleware_ServeHTTP (build (registered σ 0 ++ a ++ b))
      ∧ onions σ2 !! 1 = onions σ1 !! 1
      ∧ registered σ2 1 = registered σ 0 ++ a
      ∧ With g 0 (a ++ b) σ = Val 1 σ3
      ∧ registered σ3 1 = registered σ2 2
      ∧ Onion_ServeHTTP σ3 1 = Onion_ServeHTTP σ2 2.
Proof.
  intros σ g a b.
  assert (onions σ !! 0 = Some Example.parent) as Hp by reflexivity.
  assert (wf_slice σ (Onion_handlers Example.parent)) as Hwf
    by (split; cbn; lia).
  split; [exact Hp|]. split; [exact Hwf|].
  exact (With_With g 0 Example.parent a b σ Hp Hwf).
Defined.

Lemma New_Use_storage_witness :
  let σ := Sample.roomy_heap in
  let s := Sample.roomy_slice in
  let g := Example.doubling in
  let h := marking Example.record 2 in
  wf_slice σ s
  ∧ ∃ σ1 σ2,
      New s σ = Val 0 σ1
      ∧ Use g 0 (Some h) σ1 = Val tt σ2
      ∧ registered σ2 0 = elems σ s ++ [Some h]
      ∧ (slen s < scap s →
           length (arrays σ2) = length (arrays σ)
           ∧ array_at σ2 (sptr s) !! (soff s + slen s) = Some (Some h))
      ∧ (scap s <= slen s →
           ∀ a, a < length (arrays σ) → arrays σ2 !! a = arrays σ !! a).
Proof.
  intros σ s g h.
  assert (wf_slice σ s) as Hwf by (split; cbn; lia).
  split; [exact Hwf|].
  exact (New_Use_storage g s h σ Hwf).
Defined.

Lemma perform_all_in_sync_witness :
  let g := Example.doubling in
  let h : Handler unit unit Example.log := marking Example.record 1 in
  let cs : list (call unit unit Example.log) :=
    [call_New []; call_Use 0 (Some h)] in
  let o := mkOnion (build [Some h]) (Slice 0 0 1 1) in
  let σ := perform_all g cs (Heap [] []) in
  onions σ !! 0 = Some o
  ∧ wf_slice σ (Onion_handlers o)
  ∧ in_sync σ 0.
Proof.
  intros g h cs o σ.
  assert (onions σ !! 0 = Some o) as Hn by reflexivity.
  split; [exact Hn|].
  exact (perform_all_in_sync g cs 0 o Hn).
Defined.
